(** * LumixEngine: the editor's asset compiler and the universe's entity store

    A shallow embedding of [src/editor/asset_compiler.cpp] and
    [src/universe/universe.h].

    The asset compiler is a C++ object shared by the editor thread (file
    watcher callback, load hook, [update]) and one worker thread
    ([AssetCompilerTask::task]).  Its methods are embedded in a small state
    monad over the object's fields.  The monad also threads the set of spin
    mutexes the running thread holds, and every access to one of the three
    shared containers records whether its mutex was held at that point. *)

From Stdlib Require Import ZArith String List Bool Lia.
From stdpp Require Import base option list gmap strings.

Local Open Scope Z_scope.

Module Lumix.

(** ** Data *)

(** [Path] (engine/path.h) is represented by its text, a [Path] made from a
    C string holding that string.  A default-constructed [Path] holds the
    empty text and [Path::isValid] tests for a non-empty text. *)
Definition Path := string.

Definition Path_default : Path := EmptyString.

Definition Path_isValid (p : Path) : bool :=
  match p with
  | EmptyString => false
  | String _ _ => true
  end.

(** A [Resource] object; a [Resource*] is [option Resource], [None] being
    [nullptr]. *)
Record Resource := { res_addr : Z; res_path : Path }.

(** An [IPlugin*], by address. *)
Definition IPlugin := Z.

(** [AssetCompilerImpl::CompileEntry]. *)
Record CompileEntry := { path : Path; resource : option Resource }.

(** [CompileEntry{}]: an invalid path and a null resource. *)
Definition CompileEntry_default : CompileEntry :=
  {| path := Path_default; resource := None |}.

(** The three spin mutexes and the containers they are meant to guard. *)
Inductive Mutex := m_to_compile_mutex | m_compiled_mutex | m_plugin_mutex.

Inductive Shared := ToCompileList | CompiledList | PluginMap.

Definition Mutex_eqb (a b : Mutex) : bool :=
  match a, b with
  | m_to_compile_mutex, m_to_compile_mutex
  | m_compiled_mutex, m_compiled_mutex
  | m_plugin_mutex, m_plugin_mutex => true
  | _, _ => false
  end.

Definition guard_of (c : Shared) : Mutex :=
  match c with
  | ToCompileList => m_to_compile_mutex
  | CompiledList => m_compiled_mutex
  | PluginMap => m_plugin_mutex
  end.

(** Calls that leave the compiler: a plugin's [compile], the error log, the
    load hook's [continueLoad] and the resource manager's [reload]. *)
Inductive Event :=
| EvPluginCompile (plugin : IPlugin) (src : Path)
| EvLogError (src : Path)
| EvContinueLoad (res : Resource)
| EvReload (p : Path).

(** The fields of [AssetCompilerImpl] (with [m_task.m_finished]), whether the
    resource manager currently has the load hook installed, and the calls
    made so far. *)
Record State := {
  m_semaphore : Z;
  m_to_compile : list CompileEntry;
  m_compiled : list CompileEntry;
  m_plugins : gmap Z IPlugin;
  m_finished : bool;
  load_hook_set : bool;
  events : list Event;
}.

Definition set_semaphore (n : Z) (s : State) : State :=
  {| m_semaphore := n; m_to_compile := m_to_compile s;
     m_compiled := m_compiled s; m_plugins := m_plugins s;
     m_finished := m_finished s; load_hook_set := load_hook_set s;
     events := events s |}.

Definition set_to_compile (l : list CompileEntry) (s : State) : State :=
  {| m_semaphore := m_semaphore s; m_to_compile := l;
     m_compiled := m_compiled s; m_plugins := m_plugins s;
     m_finished := m_finished s; load_hook_set := load_hook_set s;
     events := events s |}.

Definition set_compiled (l : list CompileEntry) (s : State) : State :=
  {| m_semaphore := m_semaphore s; m_to_compile := m_to_compile s;
     m_compiled := l; m_plugins := m_plugins s;
     m_finished := m_finished s; load_hook_set := load_hook_set s;
     events := events s |}.

Definition set_plugins (m : gmap Z IPlugin) (s : State) : State :=
  {| m_semaphore := m_semaphore s; m_to_compile := m_to_compile s;
     m_compiled := m_compiled s; m_plugins := m;
     m_finished := m_finished s; load_hook_set := load_hook_set s;
     events := events s |}.

Definition set_finished (b : bool) (s : State) : State :=
  {| m_semaphore := m_semaphore s; m_to_compile := m_to_compile s;
     m_compiled := m_compiled s; m_plugins := m_plugins s;
     m_finished := b; load_hook_set := load_hook_set s;
     events := events s |}.

Definition set_load_hook (b : bool) (s : State) : State :=
  {| m_semaphore := m_semaphore s; m_to_compile := m_to_compile s;
     m_compiled := m_compiled s; m_plugins := m_plugins s;
     m_finished := m_finished s; load_hook_set := b;
     events := events s |}.

Definition add_event (e : Event) (s : State) : State :=
  {| m_semaphore := m_semaphore s; m_to_compile := m_to_compile s;
     m_compiled := m_compiled s; m_plugins := m_plugins s;
     m_finished := m_finished s; load_hook_set := load_hook_set s;
     events := events s ++ [e] |}.

(** ** The monad *)

(** What is local to the running thread: the mutexes it holds, and the
    accesses it made to a shared container without holding its mutex. *)
Record Thread := { held : list Mutex; unguarded : list Shared }.

Definition Thread_start : Thread := {| held := []; unguarded := [] |}.

(** A call returns ([Done]), stops in a failed [ASSERT], cannot proceed
    ([Blocked]: a wait on a zero semaphore, or a second lock of a mutex the
    thread already holds), or exhausts the fuel of a loop. *)
Inductive Result (A : Type) :=
| Done (a : A) (t : Thread) (s : State)
| AssertFailed (t : Thread) (s : State)
| Blocked (t : Thread) (s : State)
| OutOfFuel.

Arguments Done {A} a t s.
Arguments AssertFailed {A} t s.
Arguments Blocked {A} t s.
Arguments OutOfFuel {A}.

Definition M (A : Type) : Type := Thread → State → Result A.

#[export] Instance M_ret : MRet M := fun A (a : A) t s => Done a t s.

#[export] Instance M_bind : MBind M := fun A B (k : A → M B) (m : M A) t s =>
  match m t s with
  | Done a t' s' => k a t' s'
  | AssertFailed t' s' => AssertFailed t' s'
  | Blocked t' s' => Blocked t' s'
  | OutOfFuel => OutOfFuel
  end.

Definition get {A} (f : State → A) : M A := fun t s => Done (f s) t s.

Definition modify (f : State → State) : M unit := fun t s => Done tt t (f s).

Definition ASSERT (b : bool) : M unit :=
  fun t s => if b then Done tt t s else AssertFailed t s.

Definition out_of_fuel {A} : M A := fun _ _ => OutOfFuel.

(** A method call on a thread that holds no mutex. *)
Definition call {A} (m : M A) (s : State) : Result A := m Thread_start s.

(** *** MT::SpinMutex, MT::SpinLock, MT::Semaphore *)

Definition holds (m : Mutex) (t : Thread) : bool :=
  existsb (Mutex_eqb m) (held t).

Definition lock (m : Mutex) : M unit :=
  fun t s =>
    if holds m t then Blocked t s
    else Done tt {| held := m :: held t; unguarded := unguarded t |} s.

Definition unlock (m : Mutex) : M unit :=
  fun t s =>
    Done tt {| held := List.filter (fun x => negb (Mutex_eqb m x)) (held t);
               unguarded := unguarded t |} s.

(** [{ MT::SpinLock lock(m); body }]: the mutex is released when the scope
    is left, also by a [return] inside it. *)
Definition SpinLock {A} (m : Mutex) (body : M A) : M A :=
  lock m;; a ← body; unlock m;; mret a.

(** An access to a shared container, checked against the held mutexes. *)
Definition access (c : Shared) : M unit :=
  fun t s =>
    if holds (guard_of c) t then Done tt t s
    else Done tt {| held := held t; unguarded := unguarded t ++ [c] |} s.

(** The semaphore by its count; the maximum count 0x7fFFffFF its constructor
    is given is not part of the model. *)
Definition signal : M unit :=
  modify (fun s => set_semaphore (m_semaphore s + 1) s).

Definition wait : M unit :=
  fun t s =>
    if 0 <? m_semaphore s then Done tt t (set_semaphore (m_semaphore s - 1) s)
    else Blocked t s.

Definition emit (e : Event) : M unit := modify (add_event e).

(** *** Array<CompileEntry> and HashMap<u32, IPlugin*>

    [emplace] appends a default-constructed element, [back] is the last
    element (asserting there is one), [pop] removes the last element. *)

Definition Array_set_back (f : CompileEntry → CompileEntry)
    (l : list CompileEntry) : list CompileEntry :=
  match reverse l with
  | [] => []
  | e :: r => reverse r ++ [f e]
  end.

Definition Array_pop (l : list CompileEntry) : list CompileEntry :=
  take (Nat.pred (length l)) l.

Definition to_compile_emplace : M unit :=
  access ToCompileList;;
  modify (fun s => set_to_compile (m_to_compile s ++ [CompileEntry_default]) s).

(** A write through the reference [emplace] returned. *)
Definition to_compile_back_assign (f : CompileEntry → CompileEntry)
    : M unit :=
  access ToCompileList;;
  modify (fun s => set_to_compile (Array_set_back f (m_to_compile s)) s).

Definition to_compile_back : M CompileEntry :=
  access ToCompileList;;
  l ← get m_to_compile;
  match last l with
  | Some e => mret e
  | None => ASSERT false;; mret CompileEntry_default
  end.

Definition to_compile_pop : M unit :=
  access ToCompileList;;
  modify (fun s => set_to_compile (Array_pop (m_to_compile s)) s).

Definition compiled_empty : M bool :=
  access CompiledList;;
  l ← get m_compiled;
  mret (match l with [] => true | _ => false end).

Definition compiled_back : M CompileEntry :=
  access CompiledList;;
  l ← get m_compiled;
  match last l with
  | Some e => mret e
  | None => ASSERT false;; mret CompileEntry_default
  end.

Definition compiled_pop : M unit :=
  access CompiledList;;
  modify (fun s => set_compiled (Array_pop (m_compiled s)) s).

Definition compiled_push (e : CompileEntry) : M unit :=
  access CompiledList;;
  modify (fun s => set_compiled (m_compiled s ++ [e]) s).

Definition plugins_find (hash : Z) : M (option IPlugin) :=
  access PluginMap;;
  m ← get m_plugins;
  mret (m !! hash).

Definition plugins_insert (hash : Z) (p : IPlugin) : M unit :=
  access PluginMap;;
  modify (fun s => set_plugins (<[hash := p]> (m_plugins s)) s).

(** ** What the compiler calls but does not define *)

(** [startsWith(str, prefix)] of engine/string.h. *)
Definition startsWith (str pre : string) : bool := String.prefix pre str.

(** Helpers of the engine whose code is elsewhere: [crc32], the extension of
    a path cut to a buffer of the given length, the directory and base name
    [PathUtils::FileInfo] computes, the text [StaticString] builds from its
    parts, the decimal text of a [u32], [Path::getHash], and the outcome of
    a plugin's [compile]. *)
Record Engine := {
  crc32 : string → Z;
  getExtension : nat → string → string;
  FileInfo_dir : string → string;
  FileInfo_basename : string → string;
  StaticString : list string → string;
  toCString : Z → string;
  getHash : Path → Z;
  plugin_compile : IPlugin → Path → bool;
}.

(** An open [FS::OsFile]: its size (a [size_t]), its bytes by offset, and
    whether the device delivers them. [read(data, n)] succeeds when all [n]
    bytes were read. *)
Record OsFile := {
  file_size : Z;
  file_byte : Z → Byte.byte;
  file_delivers : bool;
}.

Definition OsFile_read (f : OsFile) (n : Z) : bool * list Byte.byte :=
  if file_delivers f && (n <=? file_size f)
  then (true, file_byte f <$> seqZ 0 n)
  else (false, []).

(** The disk as [PlatformInterface] and [FS::OsFile::open] see it at the time
    of a call. *)
Record Disk := {
  fileExists : string → bool;
  getLastModified : string → Z;
  OsFile_open : string → option OsFile;
}.

(** Conversions to [int] and to [size_t]. *)
Definition to_int (z : Z) : Z := (z + 2 ^ 31) mod 2 ^ 32 - 2 ^ 31.

Definition to_size_t (z : Z) : Z := z mod 2 ^ 64.

(** ** AssetCompilerImpl *)

Section AssetCompilerImpl.

Context (E : Engine).

(** The constructor: empty containers, free mutexes, a semaphore at zero, the
    worker started and the load hook installed. *)
Definition AssetCompilerImpl_new : State :=
  {| m_semaphore := 0; m_to_compile := []; m_compiled := [];
     m_plugins := ∅; m_finished := false; load_hook_set := true;
     events := [] |}.

(** The destructor, up to [m_task.destroy()], and the removal of the hook. *)
Definition AssetCompilerImpl_delete : M unit :=
  modify (set_finished true);;
  to_compile_emplace;;
  to_compile_back_assign (fun e => {| path := path e; resource := None |});;
  signal;;
  modify (set_load_hook false).

Definition onFileChanged (p : string) : M unit :=
  if startsWith p ".lumix" then mret tt
  else
    let ext := getExtension E 16 p in
    iter ← SpinLock m_plugin_mutex (plugins_find (crc32 E ext));
    match iter with
    | None => mret tt
    | Some _ =>
        SpinLock m_to_compile_mutex
          (to_compile_emplace;;
           to_compile_back_assign
             (fun e => {| path := path e; resource := None |});;
           to_compile_back_assign
             (fun e => {| path := p; resource := resource e |});;
           signal)
    end.

Definition meta_path_of (res : Path) : string :=
  StaticString E [FileInfo_dir E res; FileInfo_basename E res; ".meta"%string].

(** [getMeta] is [const]: it returns the [int] and the bytes it stored at
    the start of [buf] (none are recorded for a failed call). *)
Definition getMeta (fs : Disk) (res : Path) (size : Z) : Z * list Byte.byte :=
  match OsFile_open fs (meta_path_of res) with
  | None => (-1, [])
  | Some file =>
      let read_size := Z.min size (to_int (file_size file)) in
      let '(success, data) := OsFile_read file (to_size_t read_size) in
      if success then (read_size, data) else (-1, [])
  end.

Definition compile (src : Path) : M bool :=
  let ext := getExtension E 16 src in
  let hash := crc32 E ext in
  iter ← SpinLock m_plugin_mutex (plugins_find hash);
  match iter with
  | None => emit (EvLogError src);; mret false
  | Some plugin =>
      emit (EvPluginCompile plugin src);; mret (plugin_compile E plugin src)
  end.

Definition dst_path_of (res : Resource) : string :=
  StaticString E
    [".lumix/assets/"%string; toCString E (getHash E (res_path res));
     ".res"%string].

Definition onBeforeLoad (fs : Disk) (res : Resource) : M bool :=
  if negb (fileExists fs (res_path res)) then mret false
  else
    let dst_path := dst_path_of res in
    let meta_path := meta_path_of (res_path res) in
    if negb (fileExists fs dst_path)
       || (getLastModified fs dst_path <? getLastModified fs (res_path res))
       || (getLastModified fs dst_path <? getLastModified fs meta_path)
    then
      SpinLock m_to_compile_mutex
        (to_compile_emplace;;
         to_compile_back_assign
           (fun e => {| path := path e; resource := Some res |});;
         signal;;
         mret true)
    else mret false.

(** [LoadHook::onBeforeLoad] forwards to the compiler. *)
Definition LoadHook_onBeforeLoad (fs : Disk) (res : Resource) : M bool :=
  onBeforeLoad fs res.

Definition popCompiledResource : M CompileEntry :=
  SpinLock m_compiled_mutex
    (is_empty ← compiled_empty;
     if is_empty : bool then mret CompileEntry_default
     else e ← compiled_back; compiled_pop;; mret e).

(** The [for(;;)] of [update], one iteration per unit of fuel. *)
Fixpoint update_loop (fuel : nat) : M unit :=
  match fuel with
  | O => out_of_fuel
  | S fuel' =>
      e ← popCompiledResource;
      match resource e with
      | Some r => emit (EvContinueLoad r);; update_loop fuel'
      | None =>
          if Path_isValid (path e)
          then emit (EvReload (path e));; update_loop fuel'
          else mret tt
      end
  end.

(** Each iteration that continues has removed one entry of the compiled
    list, so one more iteration than its length is enough. *)
Definition update : M unit :=
  fun t s => update_loop (S (length (m_compiled s))) t s.

Definition removePlugin (plugin : IPlugin) : M unit :=
  ASSERT false.

Definition getCompiledDir : string := ".lumix/assets/".

Fixpoint addPlugin (plugin : IPlugin) (extensions : list string) : M unit :=
  match extensions with
  | [] => mret tt
  | i :: rest =>
      let hash := crc32 E i in
      SpinLock m_plugin_mutex (plugins_insert hash plugin);;
      addPlugin plugin rest
  end.

(** One turn of the [while] of [AssetCompilerTask::task], after the test of
    [m_finished]; it returns the entry it took. *)
Definition task_body : M CompileEntry :=
  wait;;
  e ← SpinLock m_to_compile_mutex
        (e ← to_compile_back; to_compile_pop;; mret e);
  match resource e with
  | Some r =>
      compile (res_path r);;
      SpinLock m_compiled_mutex (compiled_push e);;
      mret e
  | None =>
      if Path_isValid (path e)
      then compile (path e);;
           SpinLock m_compiled_mutex (compiled_push e);;
           mret e
      else mret e
  end.

(** [AssetCompilerTask::task]: the entries taken, in the order taken, ride
    along with the returned 0. *)
Fixpoint task (fuel : nat) : M (Z * list CompileEntry) :=
  match fuel with
  | O => out_of_fuel
  | S fuel' =>
      finished ← get m_finished;
      if finished : bool then mret (0, [])
      else
        e ← task_body;
        r ← task fuel';
        mret (fst r, e :: snd r)
  end.

End AssetCompilerImpl.

End Lumix.

Module Lux.

(** ** Universe *)

Section Universe.

(** [Vec3] and [Quat] hold floating-point coordinates; nothing here looks
    inside them. *)
Context {Vec3 Quat : Type}.

(** The position and rotation a slot holds when an entity is created in it. *)
Context (new_position : Vec3) (new_rotation : Quat).

(** An [Entity] is an index into the arrays of its universe. *)
Record Entity := { index : Z }.

(** The three [PODArray] fields of [Universe]. *)
Record Universe := {
  m_positions : list Vec3;
  m_rotations : list Quat;
  m_free_slots : list Z;
}.

(** [PODArray::operator[]] checks nothing: outside the array there is no
    element to return, which is [None] here. *)
Definition PODArray_at {A} (a : list A) (i : Z) : option A :=
  if 0 <=? i then a !! Z.to_nat i else None.

Definition PODArray_set {A} (a : list A) (i : Z) (x : A) : list A :=
  if 0 <=? i then <[Z.to_nat i := x]> a else a.

(** [Vec3 getPosition(int index) { return m_positions[index]; }], with the
    universe it leaves behind. *)
Definition getPosition (u : Universe) (i : Z) : option (Vec3 * Universe) :=
  v ← PODArray_at (m_positions u) i; Some (v, u).

(** [Quat getRotation(int index) { return m_rotations[index]; }]. *)
Definition getRotation (u : Universe) (i : Z) : option (Quat * Universe) :=
  q ← PODArray_at (m_rotations u) i; Some (q, u).

(** Modelled from the spec: the body of [Universe::destroyEntity] is in
    universe.cpp, which is not among the sources.  The universe is "a flat
    vector with a free list" doing "free-slot recycling": destroying an
    entity records its index in [m_free_slots]. *)
Definition destroyEntity (u : Universe) (e : Entity) : Universe :=
  {| m_positions := m_positions u;
     m_rotations := m_rotations u;
     m_free_slots := m_free_slots u ++ [index e] |}.

(** Modelled from the spec: the body of [Universe::createEntity] is in
    universe.cpp, which is not among the sources.  With no free slot the
    arrays grow by one element and the entity is the new last index;
    otherwise the slot recorded last is taken off [m_free_slots] and the
    entity is created in it, the arrays keeping their size. *)
Definition createEntity (u : Universe) : Entity * Universe :=
  match last (m_free_slots u) with
  | None =>
      ({| index := Z.of_nat (length (m_positions u)) |},
       {| m_positions := m_positions u ++ [new_position];
          m_rotations := m_rotations u ++ [new_rotation];
          m_free_slots := m_free_slots u |})
  | Some slot =>
      ({| index := slot |},
       {| m_positions := PODArray_set (m_positions u) slot new_position;
          m_rotations := PODArray_set (m_rotations u) slot new_rotation;
          m_free_slots :=
            take (Nat.pred (length (m_free_slots u))) (m_free_slots u) |})
  end.

End Universe.

Arguments Universe : clear implicits.

End Lux.

Import Lumix.

(** * Vocabulary of the properties *)

(** ** What the producers do *)

(** The state after an entry was appended to the to-compile list and the
    semaphore signalled once. *)
Definition enqueued (e : CompileEntry) (s : State) : State :=
  set_semaphore (m_semaphore s + 1) (set_to_compile (m_to_compile s ++ [e]) s).

(** The spec's condition for compiling before a load: the source exists and
    the compiled output is missing, older than the source, or older than the
    source's .meta file. *)
Definition needs_compiling (E : Engine) (fs : Disk) (res : Resource) : bool :=
  fileExists fs (res_path res)
  && (negb (fileExists fs (dst_path_of E res))
      || (getLastModified fs (dst_path_of E res)
            <? getLastModified fs (res_path res))
      || (getLastModified fs (dst_path_of E res)
            <? getLastModified fs (meta_path_of E (res_path res)))).

(** The spec's condition for accepting a file-change notification: the path
    is not under .lumix and a plugin is registered under the hash of its
    extension. *)
Definition accepts_change (E : Engine) (p : string) (s : State) : bool :=
  negb (startsWith p ".lumix")
  && bool_decide (is_Some (m_plugins s !! crc32 E (getExtension E 16 p))).

(** ** What the worker does *)

(** What [compile] reports for a source: the plugin call, or the error
    logged when no plugin knows the extension. *)
Definition compile_event (E : Engine) (src : Path) (s : State) : Event :=
  match m_plugins s !! crc32 E (getExtension E 16 src) with
  | Some plugin => EvPluginCompile plugin src
  | None => EvLogError src
  end.

Definition compile_result (E : Engine) (src : Path) (s : State) : bool :=
  match m_plugins s !! crc32 E (getExtension E 16 src) with
  | Some plugin => plugin_compile E plugin src
  | None => false
  end.

(** The source the worker compiles for an entry, if any. *)
Definition entry_source (e : CompileEntry) : option Path :=
  match resource e with
  | Some r => Some (res_path r)
  | None => if Path_isValid (path e) then Some (path e) else None
  end.

(** The worker's handling of a taken entry: compile its source and append
    the entry to the compiled list, or nothing for an entry without source. *)
Definition handled (E : Engine) (e : CompileEntry) (s : State) : State :=
  match entry_source e with
  | Some src =>
      set_compiled (m_compiled s ++ [e]) (add_event (compile_event E src s) s)
  | None => s
  end.

(** [n] turns of the worker's loop, stopping early at a turn that does not
    complete: the entries taken, in the order taken, and the final state. *)
Fixpoint task_turns (E : Engine) (n : nat) (s : State)
    : list CompileEntry * State :=
  match n with
  | O => ([], s)
  | S n' =>
      match call (task_body E) s with
      | Done e _ s' =>
          let '(l, s'') := task_turns E n' s' in (e :: l, s'')
      | _ => ([], s)
      end
  end.

(** ** The compiler over its lifetime *)

(** The calls the editor and the worker make on a live compiler. *)
Inductive Op :=
| OpFileChanged (p : string)
| OpBeforeLoad (fs : Disk) (res : Resource)
| OpAddPlugin (plugin : IPlugin) (extensions : list string)
| OpRemovePlugin (plugin : IPlugin)
| OpUpdate
| OpTaskTurn.

(** The state a call leaves: a blocked or asserting call keeps the state it
    stopped in. *)
Definition state_of {A} (r : Result A) (s : State) : State :=
  match r with
  | Done _ _ s' | AssertFailed _ s' | Blocked _ s' => s'
  | OutOfFuel => s
  end.

Definition step (E : Engine) (op : Op) (s : State) : State :=
  match op with
  | OpFileChanged p => state_of (call (onFileChanged E p) s) s
  | OpBeforeLoad fs res => state_of (call (LoadHook_onBeforeLoad E fs res) s) s
  | OpAddPlugin plugin exts => state_of (call (addPlugin E plugin exts) s) s
  | OpRemovePlugin plugin => state_of (call (removePlugin plugin) s) s
  | OpUpdate => state_of (call update s) s
  | OpTaskTurn => state_of (call (task_body E) s) s
  end.

Definition run (E : Engine) (ops : list Op) (s : State) : State :=
  foldl (fun s op => step E op s) s ops.

(** The states a compiler goes through from its construction. *)
Definition reachable (E : Engine) (s : State) : Prop :=
  ∃ ops, run E ops AssetCompilerImpl_new = s.

Definition is_producer (op : Op) : bool :=
  match op with
  | OpFileChanged _ | OpBeforeLoad _ _ => true
  | _ => false
  end.

(** The entries a run of calls appended to the to-compile list of [s], in
    the order they were appended, when no call removed one. *)
Definition appended (E : Engine) (ops : list Op) (s : State)
    : list CompileEntry :=
  drop (length (m_to_compile s)) (m_to_compile (run E ops s)).

(** ** A sample engine

    Stand-ins for the engine's helpers, to run the compiler on concrete
    calls: the extension is the text after the last dot, its hash is its
    length. *)

Fixpoint after_last_dot (p : string) : option string :=
  match p with
  | EmptyString => None
  | String c r =>
      match after_last_dot r with
      | Some e => Some e
      | None => if Ascii.eqb c (Ascii.ascii_of_nat 46) then Some r else None
      end
  end.

Fixpoint String_take (n : nat) (p : string) : string :=
  match n, p with
  | S n', String c r => String c (String_take n' r)
  | _, _ => EmptyString
  end.

Definition sample_engine : Engine :=
  {| crc32 := fun ext => Z.of_nat (String.length ext);
     getExtension := fun n p =>
       String_take (Nat.pred n) (default EmptyString (after_last_dot p));
     FileInfo_dir := fun _ => EmptyString;
     FileInfo_basename := fun p => p;
     StaticString := fun parts => String.concat EmptyString parts;
     toCString := fun h => if h =? 0 then "0"%string else "1"%string;
     getHash := fun p => Z.of_nat (String.length p);
     plugin_compile := fun _ _ => true |}.

(** A compiler with plugin 7 registered for the extension "png". *)
Definition sample_state : State :=
  step sample_engine (OpAddPlugin 7 ["png"%string]) AssetCompilerImpl_new.

(** Two change notifications, for a.png and then b.png. *)
Definition two_changes : list Op :=
  [OpFileChanged "a.png"; OpFileChanged "b.png"].

(** ** What a call leaves untouched *)

(** [frames R m]: wherever the call [m] stops, the state it stops in is
    related by [R] to the state it started from. *)
Definition frames (R : State → State → Prop) {A} (m : M A) : Prop :=
  ∀ t s,
    match m t s with
    | Done _ _ s' | AssertFailed _ s' | Blocked _ s' => R s s'
    | OutOfFuel => True
    end.

(** The plugin map is the same. *)
Definition same_plugins (s s' : State) : Prop := m_plugins s' = m_plugins s.

(** Every hash that had a plugin still has one. *)
Definition keeps_registrations (s s' : State) : Prop :=
  ∀ h, is_Some (m_plugins s !! h) → is_Some (m_plugins s' !! h).



(** Any number of change notifications for the file "a", after a plugin was
    registered for its extension. *)
Definition flood (E : Engine) (n : nat) : list Op :=
  OpAddPlugin 0 [getExtension E 16 "a"] :: replicate n (OpFileChanged "a").

(** ** What update does *)

(** An entry with a null resource and an invalid path: the one [update]
    stops at. *)
Definition is_stop (e : CompileEntry) : bool :=
  match resource e with
  | Some _ => false
  | None => negb (Path_isValid (path e))
  end.

(** What [update] calls for an entry it does not stop at. *)
Definition effect_of (e : CompileEntry) : Event :=
  match resource e with
  | Some r => EvContinueLoad r
  | None => EvReload (path e)
  end.

(** The state with the compiled list replaced and more calls made. *)
Definition drained (l : list CompileEntry) (evs : list Event) (s : State)
    : State :=
  {| m_semaphore := m_semaphore s; m_to_compile := m_to_compile s;
     m_compiled := l; m_plugins := m_plugins s;
     m_finished := m_finished s; load_hook_set := load_hook_set s;
     events := events s ++ evs |}.

(** No entry of the compiled list is one [update] stops at. *)
Definition no_stop (s : State) : Prop :=
  Forall (fun e => is_stop e = false) (m_compiled s).

Definition keeps_no_stop (s s' : State) : Prop := no_stop s → no_stop s'.

(** A compiled list of three: a reload, an entry [update] stops at, and a
    resource whose load continues. *)
Definition sample_resource : Resource :=
  {| res_addr := 4096; res_path := "b.png" |}.

Definition sample_compiled : State :=
  set_compiled
    [{| path := "a.png"; resource := None |};
     CompileEntry_default;
     {| path := Path_default; resource := Some sample_resource |}]
    AssetCompilerImpl_new.

(** ** The lock discipline *)

(** The accesses a call made to a shared container without holding the
    container's mutex. *)
Definition unguarded_of {A} (r : Result A) : list Shared :=
  match r with
  | Done _ t _ | AssertFailed t _ | Blocked t _ => unguarded t
  | OutOfFuel => []
  end.

(** ** A large .meta file *)

(** A .meta file of 4 GiB and 5 bytes, all of them zero, on a disk whose
    every path opens it. *)
Definition big_meta : OsFile :=
  {| file_size := 2 ^ 32 + 5;
     file_byte := fun _ => Byte.x00;
     file_delivers := true |}.

Definition big_disk : Disk :=
  {| fileExists := fun _ => true;
     getLastModified := fun _ => 0;
     OsFile_open := fun _ => Some big_meta |}.

(** ** A sample universe *)

(** A universe of three entities, positions and rotations being numbers
    here, with slot 1 free. *)
Definition sample_universe : Lux.Universe Z Z :=
  {| Lux.m_positions := [10; 11; 12];
     Lux.m_rotations := [20; 21; 22];
     Lux.m_free_slots := [1] |}.

(** ** Invariants of the compiler *)

(** The semaphore counts the pending entries. *)
Definition balanced (s : State) : Prop :=
  m_semaphore s = Z.of_nat (length (m_to_compile s)).

(** [ev] is the compilation of [src]: a plugin's [compile] on it, or the
    error logged because no plugin knows its extension. *)
Definition compiles (src : Path) (ev : Event) : bool :=
  match ev with
  | EvPluginCompile _ p | EvLogError p => String.eqb p src
  | _ => false
  end.

Definition was_compiled (src : Path) (evs : list Event) : Prop :=
  ∃ ev, ev ∈ evs ∧ compiles src ev = true.

(** The source whose load [ev] continues or whose reload [ev] asks for. *)
Definition effect_source (ev : Event) : option Path :=
  match ev with
  | EvContinueLoad r => Some (res_path r)
  | EvReload p => Some p
  | _ => None
  end.

(** Every [continueLoad] and [reload] comes after a compilation of its
    source. *)
Definition compiled_before_use (evs : list Event) : Prop :=
  ∀ pre ev post src,
    evs = pre ++ ev :: post →
    effect_source ev = Some src →
    was_compiled src pre.

(** Every entry of the compiled list has a source, whose compilation is
    among the calls made. *)
Definition compiled_entries_done (s : State) : Prop :=
  ∀ e, e ∈ m_compiled s →
       ∃ src, entry_source e = Some src ∧ was_compiled src (events s).

(** The entries the worker hands over to the editor. *)
Definition has_source (e : CompileEntry) : bool := negb (is_stop e).

(** * Properties of the asset compiler *)

(** Runs the monadic code of a method on the thread and state at hand. *)
Ltac run_M :=
  cbv beta iota delta
    [call SpinLock to_compile_emplace to_compile_back_assign to_compile_back
     to_compile_pop compiled_empty compiled_back compiled_pop compiled_push
     plugins_find plugins_insert signal wait emit get modify ASSERT
     out_of_fuel lock unlock access holds guard_of Thread_start
     mbind M_bind mret M_ret];
  cbn [existsb Mutex_eqb held unguarded orb negb app List.filter
       m_semaphore m_to_compile m_compiled m_plugins m_finished
       load_hook_set events set_semaphore set_to_compile set_compiled
       set_plugins set_finished set_load_hook add_event resource path];
  cbv beta.

Section Producers.

Context (E : Engine).

Lemma Array_set_back_snoc (f : CompileEntry → CompileEntry) l e :
  Array_set_back f (l ++ [e]) = l ++ [f e].
Proof.
  unfold Array_set_back. rewrite reverse_snoc. now rewrite reverse_involutive.
Qed.

Lemma Array_pop_snoc (l : list CompileEntry) e : Array_pop (l ++ [e]) = l.
Proof.
  unfold Array_pop. rewrite length_app. simpl.
  replace (Nat.pred (length l + 1)) with (length l) by lia.
  now rewrite take_app_length.
Qed.

Lemma onBeforeLoad_call fs res s :
  call (onBeforeLoad E fs res) s
  = Done (needs_compiling E fs res) Thread_start
      (if needs_compiling E fs res
       then enqueued {| path := Path_default; resource := Some res |} s
       else s).
Proof.
  unfold needs_compiling, onBeforeLoad, call.
  destruct (fileExists fs (res_path res)); simpl; [|reflexivity].
  destruct (negb (fileExists fs (dst_path_of E res))
            || (getLastModified fs (dst_path_of E res)
                  <? getLastModified fs (res_path res))
            || (getLastModified fs (dst_path_of E res)
                  <? getLastModified fs (meta_path_of E (res_path res))));
    [|reflexivity].
  run_M. rewrite Array_set_back_snoc. reflexivity.
Qed.


Lemma onFileChanged_call p s :
  call (onFileChanged E p) s
  = Done tt Thread_start
      (if accepts_change E p s
       then enqueued {| path := p; resource := None |} s
       else s).
Proof.
  unfold accepts_change, onFileChanged.
  destruct (startsWith p ".lumix"); [reflexivity|].
  run_M. simpl negb. rewrite andb_true_l.
  destruct (m_plugins s !! crc32 E (getExtension E 16 p)) as [plugin|] eqn:Hf.
  - rewrite bool_decide_eq_true_2 by eauto.
    run_M. now rewrite !Array_set_back_snoc.
  - rewrite bool_decide_eq_false_2 by (intros [? ?]; congruence).
    reflexivity.
Qed.

(** C2. A file-change notification whose path is not under .lumix and whose
    extension has a registered plugin appends exactly one entry (that path,
    a null resource) to the to-compile list and signals the semaphore once;
    any other notification leaves the list and the semaphore as they were. *)
Theorem onFileChanged_enqueues_iff_accepted p s :
  call (onFileChanged E p) s
  = Done tt Thread_start
      (if accepts_change E p s
       then enqueued {| path := p; resource := None |} s
       else s)
  ∧ m_to_compile (enqueued {| path := p; resource := None |} s)
    = m_to_compile s ++ [{| path := p; resource := None |}]
  ∧ m_semaphore (enqueued {| path := p; resource := None |} s)
    = m_semaphore s + 1
  ∧ (accepts_change E p s = true
     ↔ startsWith p ".lumix" = false
       ∧ is_Some (m_plugins s !! crc32 E (getExtension E 16 p))).
Proof.
  split; [apply onFileChanged_call|]. repeat split.
  - unfold accepts_change in H.
    apply andb_true_iff in H as [H _]. now apply negb_true_iff.
  - unfold accepts_change in H.
    apply andb_true_iff in H as [_ H]. now apply bool_decide_eq_true in H.
  - intros [H1 H2]. unfold accepts_change. rewrite H1. simpl.
    now apply bool_decide_eq_true.
Qed.

End Producers.

(** ** The worker *)

Section Worker.

Context (E : Engine).

Lemma compile_call src s :
  call (compile E src) s
  = Done (compile_result E src s) Thread_start
      (add_event (compile_event E src s) s).
Proof.
  unfold compile, compile_result, compile_event. run_M.
  destruct (m_plugins s !! crc32 E (getExtension E 16 src)); reflexivity.
Qed.

Lemma task_body_call s l e :
  m_to_compile s = l ++ [e] →
  0 < m_semaphore s →
  call (task_body E) s
  = Done e Thread_start
      (handled E e (set_to_compile l (set_semaphore (m_semaphore s - 1) s))).
Proof.
  intros Hl Hs. apply Z.ltb_lt in Hs.
  pose proof compile_call as Hc. unfold call, Thread_start in Hc.
  unfold task_body, handled, entry_source.
  destruct e as [p [r|]]; cbn [resource path] in *.
  - run_M. rewrite Hs. run_M. rewrite Hl, last_snoc. run_M.
    rewrite Hl, Array_pop_snoc. run_M. rewrite Hc. reflexivity.
  - run_M. rewrite Hs. run_M. rewrite Hl, last_snoc. run_M.
    rewrite Hl, Array_pop_snoc. run_M.
    destruct (Path_isValid p); [|reflexivity].
    run_M. rewrite Hc. reflexivity.
Qed.

Lemma handled_to_compile e s : m_to_compile (handled E e s) = m_to_compile s.
Proof. unfold handled. now destruct (entry_source e). Qed.

Lemma handled_semaphore e s : m_semaphore (handled E e s) = m_semaphore s.
Proof. unfold handled. now destruct (entry_source e). Qed.

(** A turn that takes an entry takes the one at the end of the list and
    leaves the others in place. *)
Lemma task_body_takes_end s e t s' :
  call (task_body E) s = Done e t s' →
  m_to_compile s = m_to_compile s' ++ [e].
Proof.
  destruct (0 <? m_semaphore s) eqn:Hsem.
  - destruct (m_to_compile s) as [|x l _] eqn:Hl using rev_ind.
    + unfold task_body. run_M. rewrite Hsem. run_M. rewrite Hl. discriminate.
    + apply Z.ltb_lt in Hsem. rewrite (task_body_call s l x) by auto.
      intros [= <- _ <-]. now rewrite handled_to_compile.
  - unfold task_body. run_M. rewrite Hsem. discriminate.
Qed.

(** The worker takes the entries at the end of the list, last one first. *)
Lemma task_turns_takes_last es : ∀ s l,
  m_to_compile s = l ++ es →
  Z.of_nat (length es) <= m_semaphore s →
  (task_turns E (length es) s).1 = reverse es
  ∧ m_to_compile (task_turns E (length es) s).2 = l.
Proof.
  induction es as [|e es IH] using rev_ind; intros s l Hl Hs.
  - simpl. rewrite app_nil_r in Hl. auto.
  - rewrite length_app in *. simpl length in *.
    replace (length es + 1)%nat with (S (length es)) in * by lia.
    cbn [task_turns].
    rewrite (task_body_call s (l ++ es) e)
      by (rewrite ?Hl, ?app_assoc; auto; lia).
    set (s' := handled E e _).
    destruct (IH s' l) as [IH1 IH2].
    + subst s'. now rewrite handled_to_compile.
    + subst s'. rewrite handled_semaphore. simpl. lia.
    + destruct (task_turns E (length es) s') as [taken s''].
      simpl in *. rewrite reverse_snoc. now subst.
Qed.

End Worker.

Section Lifetime.

Context (E : Engine).

Lemma step_producer op s :
  is_producer op = true →
  ∃ es, m_to_compile (step E op s) = m_to_compile s ++ es
        ∧ m_semaphore (step E op s) = m_semaphore s + Z.of_nat (length es).
Proof.
  destruct op; try discriminate; intros _; simpl.
  - rewrite onFileChanged_call.
    destruct (accepts_change E p s); simpl.
    + eexists [_]. split; [reflexivity|]. simpl. lia.
    + exists []. rewrite app_nil_r. split; [reflexivity|]. simpl. lia.
  - unfold LoadHook_onBeforeLoad. rewrite onBeforeLoad_call.
    destruct (needs_compiling E fs res); simpl.
    + eexists [_]. split; [reflexivity|]. simpl. lia.
    + exists []. rewrite app_nil_r. split; [reflexivity|]. simpl. lia.
Qed.

Lemma run_producers ops : ∀ s,
  forallb is_producer ops = true →
  ∃ es, m_to_compile (run E ops s) = m_to_compile s ++ es
        ∧ m_semaphore (run E ops s) = m_semaphore s + Z.of_nat (length es).
Proof.
  induction ops as [|op ops IH]; intros s Hp.
  - exists []. simpl. rewrite app_nil_r. split; [reflexivity|lia].
  - simpl in Hp. apply andb_true_iff in Hp as [Hop Hops].
    destruct (step_producer op s Hop) as (es1 & Hl1 & Hs1).
    destruct (IH (step E op s) Hops) as (es2 & Hl2 & Hs2).
    exists (es1 ++ es2). unfold run in *. simpl.
    rewrite Hl2, Hl1, Hs2, Hs1, length_app, app_assoc.
    split; [reflexivity|lia].
Qed.

Lemma run_producers_appended ops s :
  forallb is_producer ops = true →
  m_to_compile (run E ops s) = m_to_compile s ++ appended E ops s
  ∧ m_semaphore (run E ops s)
    = m_semaphore s + Z.of_nat (length (appended E ops s)).
Proof.
  intros Hp. destruct (run_producers ops s Hp) as (es & Hl & Hs).
  unfold appended. rewrite Hl, drop_app_length. auto.
Qed.

Lemma step_producer_appends op s :
  is_producer op = true →
  m_to_compile (step E op s) = m_to_compile s
  ∨ ∃ e, m_to_compile (step E op s) = m_to_compile s ++ [e].
Proof.
  destruct op; try discriminate; intros _; cbn [step].
  - rewrite onFileChanged_call.
    destruct (accepts_change E p s); simpl; eauto.
  - unfold LoadHook_onBeforeLoad. rewrite onBeforeLoad_call.
    destruct (needs_compiling E fs res); simpl; eauto.
Qed.

(** C3 (as the code has it). The to-compile list is a stack, not a queue.
    In every state a producer ([onFileChanged], [onBeforeLoad]) leaves the
    list as it is or appends one entry at its end, and a turn of the worker
    that takes an entry takes the one at the end, the newest still pending,
    leaving the others in place.  So the entries appended by a run of
    producer calls with no turn of the worker in between are taken by the
    worker's next turns newest first, in the reverse of their order of
    arrival. *)
Theorem worker_takes_newest_first ops s :
  (∀ op s0,
     is_producer op = true →
     m_to_compile (step E op s0) = m_to_compile s0
     ∨ ∃ e, m_to_compile (step E op s0) = m_to_compile s0 ++ [e])
  ∧ (∀ s0 e t s1,
       call (task_body E) s0 = Done e t s1 →
       m_to_compile s0 = m_to_compile s1 ++ [e])
  ∧ (forallb is_producer ops = true →
     0 <= m_semaphore s →
     m_to_compile (run E ops s) = m_to_compile s ++ appended E ops s
     ∧ (task_turns E (length (appended E ops s)) (run E ops s)).1
       = reverse (appended E ops s)
     ∧ m_to_compile
         (task_turns E (length (appended E ops s)) (run E ops s)).2
       = m_to_compile s).
Proof.
  split; [exact step_producer_appends|].
  split; [exact (task_body_takes_end E)|].
  intros Hp Hs. destruct (run_producers_appended ops s Hp) as [Hl Hsem].
  split; [exact Hl|].
  apply task_turns_takes_last; [exact Hl|lia].
Qed.

End Lifetime.

(** C3, at a concrete run: a.png is appended before b.png, and the worker
    takes b.png before a.png. *)
Lemma worker_not_fifo :
  appended sample_engine two_changes sample_state
  = [{| path := "a.png"; resource := None |};
     {| path := "b.png"; resource := None |}]
  ∧ (task_turns sample_engine 2
       (run sample_engine two_changes sample_state)).1
    = [{| path := "b.png"; resource := None |};
       {| path := "a.png"; resource := None |}]
  ∧ (task_turns sample_engine
       (length (appended sample_engine two_changes sample_state))
       (run sample_engine two_changes sample_state)).1
    ≠ appended sample_engine two_changes sample_state.
Proof.
  split; [vm_compute; reflexivity|].
  split; [vm_compute; reflexivity|].
  vm_compute. discriminate.
Qed.

(** The worker's order on the two change notifications. *)
Lemma worker_takes_newest_first_witness :
  (task_turns sample_engine
     (length (appended sample_engine two_changes sample_state))
     (run sample_engine two_changes sample_state)).1
  = reverse (appended sample_engine two_changes sample_state).
Proof.
  apply (proj2 (proj2
           (worker_takes_newest_first sample_engine two_changes
              sample_state))).
  - reflexivity.
  - vm_compute. discriminate.
Defined.

(** With a turn of the worker after each notification, every turn finds
    one entry, the newest, and a.png is taken before b.png. *)
Lemma worker_turn_after_each_change :
  (task_turns sample_engine 1
     (step sample_engine (OpFileChanged "a.png") sample_state)).1
  = [{| path := "a.png"; resource := None |}]
  ∧ (task_turns sample_engine 1
       (step sample_engine (OpFileChanged "b.png")
          (run sample_engine [OpFileChanged "a.png"; OpTaskTurn]
             sample_state))).1
    = [{| path := "b.png"; resource := None |}].
Proof. split; vm_compute; reflexivity. Qed.

(** ** Frames *)

Section Frames.

Context (R : State → State → Prop) `{!PreOrder R}.

Lemma frames_bind {A B} (m : M A) (k : A → M B) :
  frames R m → (∀ a, frames R (k a)) → frames R (m ≫= k).
Proof.
  intros Hm Hk t s. specialize (Hm t s).
  unfold mbind, M_bind. destruct (m t s) as [a t' s'| | |]; auto.
  specialize (Hk a t' s').
  destruct (k a t' s'); try (etransitivity; eassumption); exact I.
Qed.

Lemma frames_ret {A} (a : A) : frames R (mret a).
Proof. intros t s. change (R s s). reflexivity. Qed.

Lemma frames_get {A} (f : State → A) : frames R (get f).
Proof. intros t s. change (R s s). reflexivity. Qed.

Lemma frames_modify (f : State → State) :
  (∀ s, R s (f s)) → frames R (modify f).
Proof. intros Hf t s. apply Hf. Qed.

Lemma frames_ASSERT b : frames R (ASSERT b).
Proof. intros t s. unfold ASSERT. destruct b; change (R s s); reflexivity. Qed.

Lemma frames_lock m : frames R (lock m).
Proof.
  intros t s. unfold lock.
  destruct (holds m t); change (R s s); reflexivity.
Qed.

Lemma frames_unlock m : frames R (unlock m).
Proof. intros t s. change (R s s). reflexivity. Qed.

Lemma frames_access c : frames R (access c).
Proof.
  intros t s. unfold access.
  destruct (holds (guard_of c) t); change (R s s); reflexivity.
Qed.

Lemma frames_SpinLock {A} m (body : M A) :
  frames R body → frames R (SpinLock m body).
Proof.
  intros Hb. unfold SpinLock.
  apply frames_bind; [apply frames_lock|intros _].
  apply frames_bind; [exact Hb|intros a].
  apply frames_bind; [apply frames_unlock|intros _].
  apply frames_ret.
Qed.

Lemma frames_out_of_fuel {A} : frames R (@out_of_fuel A).
Proof. intros t s. exact I. Qed.

End Frames.

(** Proves [frames R m] for straight-line code; [tac] proves what [R] asks
    of each state update. *)
Ltac frames_with tac :=
  cbv zeta;
  repeat first
    [ apply frames_SpinLock; [apply _|]
    | apply frames_ret; apply _
    | apply frames_get; apply _
    | apply frames_ASSERT; apply _
    | apply frames_access; apply _
    | apply frames_lock; apply _
    | apply frames_unlock; apply _
    | apply frames_out_of_fuel
    | apply frames_modify; intros ?; tac
    | match goal with
      | |- frames _ (match ?x with _ => _ end) => destruct x
      end
    | apply frames_bind; [apply _| |intros ?] ].

#[export] Instance same_plugins_preorder : PreOrder same_plugins.
Proof.
  split.
  - intros s. reflexivity.
  - intros s1 s2 s3. unfold same_plugins. congruence.
Qed.

#[export] Instance keeps_registrations_preorder : PreOrder keeps_registrations.
Proof.
  split.
  - intros s h H. exact H.
  - intros s1 s2 s3 H1 H2 h H. auto.
Qed.



Section Plugins.

Context (E : Engine).







End Plugins.

Section Registrations.

Context (E : Engine).

Lemma frames_state_of (R : State → State → Prop) `{!PreOrder R}
    {A} (m : M A) s :
  frames R m → R s (state_of (call m s) s).
Proof.
  intros Hm. specialize (Hm Thread_start s). unfold call.
  destruct (m Thread_start s); simpl; auto. reflexivity.
Qed.









Lemma addPlugin_call plugin exts : ∀ s,
  call (addPlugin E plugin exts) s
  = Done tt Thread_start
      (set_plugins
         (foldl (fun m ext => <[crc32 E ext := plugin]> m) (m_plugins s) exts)
         s).
Proof.
  induction exts as [|ext exts IH]; intros s.
  - destruct s; reflexivity.
  - unfold call in *. cbn [addPlugin foldl]. run_M.
    rewrite IH. reflexivity.
Qed.






Lemma run_file_changes n : ∀ s,
  accepts_change E "a" s = true →
  length (m_to_compile (run E (replicate n (OpFileChanged "a")) s))
  = (length (m_to_compile s) + n)%nat.
Proof.
  induction n as [|n IH]; intros s Hacc; simpl; [lia|].
  unfold run in *. rewrite IH.
  - simpl. rewrite onFileChanged_call, Hacc. simpl.
    rewrite length_app. simpl. lia.
  - simpl. rewrite onFileChanged_call, Hacc. exact Hacc.
Qed.

Lemma flood_length n :
  length (m_to_compile (run E (flood E n) AssetCompilerImpl_new)) = n.
Proof.
  change (run E (flood E n) AssetCompilerImpl_new)
    with (run E (replicate n (OpFileChanged "a"))
            (step E (OpAddPlugin 0 [getExtension E 16 "a"])
               AssetCompilerImpl_new)).
  rewrite run_file_changes.
  - cbn [step]. rewrite addPlugin_call. reflexivity.
  - cbn [step]. rewrite addPlugin_call. unfold accepts_change. simpl.
    rewrite lookup_insert_eq. reflexivity.
Qed.

(** C4 (as the code has it). The to-compile list has no capacity: a
    notification that is accepted, and a load that needs compiling, append
    their entry whatever the length of the list, and every length is that
    of the list in some state the compiler reaches. *)
Theorem to_compile_has_no_capacity :
  (∀ p s,
     accepts_change E p s = true →
     length (m_to_compile (step E (OpFileChanged p) s))
     = S (length (m_to_compile s)))
  ∧ (∀ fs res s,
       needs_compiling E fs res = true →
       length (m_to_compile (step E (OpBeforeLoad fs res) s))
       = S (length (m_to_compile s)))
  ∧ (∀ n, ∃ s, reachable E s ∧ length (m_to_compile s) = n).
Proof.
  split; [|split].
  - intros p s Hacc. cbn [step]. rewrite onFileChanged_call, Hacc. simpl.
    rewrite length_app. simpl. lia.
  - intros fs res s Hn. cbn [step]. unfold LoadHook_onBeforeLoad.
    rewrite onBeforeLoad_call, Hn. simpl.
    rewrite length_app. simpl. lia.
  - intros n. exists (run E (flood E n) AssetCompilerImpl_new).
    split; [now exists (flood E n)|apply flood_length].
Qed.

End Registrations.



(** C4, refuted: no capacity bounds the to-compile list over the states of
    the compiler; [cap + 1] accepted notifications exceed [cap]. *)
Lemma to_compile_not_bounded :
  ¬ ∃ cap : nat,
      ∀ s, reachable sample_engine s → (length (m_to_compile s) <= cap)%nat.
Proof.
  intros [cap Hcap].
  specialize (Hcap (run sample_engine (flood sample_engine (S cap))
                      AssetCompilerImpl_new)).
  rewrite flood_length in Hcap.
  assert (S cap <= cap)%nat by (apply Hcap; now eexists).
  lia.
Qed.

(** ** update *)

Section Update.

Lemma popCompiledResource_empty s :
  m_compiled s = [] →
  call popCompiledResource s = Done CompileEntry_default Thread_start s.
Proof.
  intros He. unfold popCompiledResource. run_M. rewrite He. reflexivity.
Qed.

Lemma popCompiledResource_snoc s l e :
  m_compiled s = l ++ [e] →
  call popCompiledResource s = Done e Thread_start (set_compiled l s).
Proof.
  intros He. unfold popCompiledResource. run_M. rewrite He.
  assert (Hne : match l ++ [e] with [] => true | _ => false end = false)
    by now destruct l.
  rewrite Hne. run_M. rewrite He, last_snoc. run_M. rewrite He, Array_pop_snoc.
  reflexivity.
Qed.

Lemma drained_nil s : m_compiled s = [] → drained [] [] s = s.
Proof.
  destruct s; simpl; intros ->. unfold drained; simpl.
  now rewrite app_nil_r.
Qed.

Lemma drained_stop l s : drained l [] s = set_compiled l s.
Proof. unfold drained, set_compiled. now rewrite app_nil_r. Qed.

Lemma drained_step l ev evs k s :
  drained k evs (add_event ev (set_compiled l s)) = drained k (ev :: evs) s.
Proof. unfold drained; simpl. now rewrite <- app_assoc. Qed.

(** The loop pops the entries after the last stop entry, newest first, and
    ends by popping that stop entry, or on the empty list. *)
Lemma update_loop_pops done : ∀ fuel s keep,
  m_compiled s = keep ++ done →
  Forall (fun e => is_stop e = false) done →
  (length done < fuel)%nat →
  (keep = [] →
   update_loop fuel Thread_start s
   = Done tt Thread_start (drained [] (effect_of <$> reverse done) s))
  ∧ (∀ k e, keep = k ++ [e] → is_stop e = true →
     update_loop fuel Thread_start s
     = Done tt Thread_start (drained k (effect_of <$> reverse done) s)).
Proof.
  pose proof popCompiledResource_empty as Hpe.
  pose proof popCompiledResource_snoc as Hps.
  unfold call in Hpe, Hps.
  induction done as [|d done IH] using rev_ind; intros fuel s keep Hc Hd Hf.
  - rewrite app_nil_r in Hc.
    destruct fuel as [|fuel]; [simpl in Hf; lia|]. split.
    + intros ->. cbn [update_loop]. unfold mbind, M_bind.
      rewrite Hpe by exact Hc. simpl.
      now rewrite drained_nil.
    + intros k e -> He. cbn [update_loop]. unfold mbind, M_bind.
      rewrite (Hps s k e) by exact Hc.
      unfold is_stop in He. destruct (resource e); [discriminate|].
      apply negb_true_iff in He. rewrite He. simpl.
      now rewrite drained_stop.
  - rewrite length_app in Hf. simpl in Hf.
    destruct fuel as [|fuel]; [lia|].
    apply Forall_app in Hd as [Hd Hdd].
    apply Forall_inv in Hdd.
    assert (Hstep : update_loop (S fuel) Thread_start s
                    = update_loop fuel Thread_start
                        (add_event (effect_of d)
                           (set_compiled (keep ++ done) s))).
    { cbn [update_loop]. unfold mbind at 1, M_bind at 1.
      rewrite (Hps s (keep ++ done) d) by now rewrite <- app_assoc.
      unfold is_stop in Hdd. unfold effect_of.
      destruct (resource d); [reflexivity|].
      apply negb_false_iff in Hdd. rewrite Hdd. reflexivity. }
    rewrite Hstep, reverse_snoc, fmap_cons.
    destruct (IH fuel (add_event (effect_of d) (set_compiled (keep ++ done) s))
                keep) as [IH1 IH2]; [reflexivity|exact Hd|lia|].
    split.
    + intros Hk. rewrite IH1 by exact Hk. now rewrite drained_step.
    + intros k e Hk He. rewrite (IH2 k e Hk He). now rewrite drained_step.
Qed.

Lemma update_no_stop s :
  no_stop s →
  call update s
  = Done tt Thread_start (drained [] (effect_of <$> reverse (m_compiled s)) s).
Proof.
  intros Hs. unfold call, update.
  destruct (update_loop_pops (m_compiled s) (S (length (m_compiled s))) s [])
    as [H _]; auto.
Qed.

Lemma update_stop s keep e done :
  m_compiled s = keep ++ e :: done →
  is_stop e = true →
  Forall (fun e => is_stop e = false) done →
  call update s
  = Done tt Thread_start (drained keep (effect_of <$> reverse done) s).
Proof.
  intros Hc He Hd. unfold call, update.
  destruct (update_loop_pops done (S (length (m_compiled s))) s (keep ++ [e]))
    as [_ H]; auto.
  - now rewrite <- app_assoc.
  - rewrite Hc, length_app. simpl. lia.
  - now apply (H keep e).
Qed.

Lemma last_stop_split (l : list CompileEntry) :
  Forall (fun e => is_stop e = false) l
  ∨ ∃ keep e done,
      l = keep ++ e :: done ∧ is_stop e = true
      ∧ Forall (fun e => is_stop e = false) done.
Proof.
  induction l as [|x l IH] using rev_ind; [left; constructor|].
  destruct (is_stop x) eqn:Hx.
  - right. exists l, x, []. repeat split; auto.
  - destruct IH as [IH|(keep & e & done & -> & He & Hd)].
    + left. apply Forall_app. split; [exact IH|now constructor].
    + right. exists keep, e, (done ++ [x]). rewrite <- app_assoc.
      repeat split; auto. apply Forall_app. split; [exact Hd|now constructor].
Qed.

(** [update] returns from every state. *)
Lemma update_returns s :
  ∃ keep evs, call update s = Done tt Thread_start (drained keep evs s).
Proof.
  destruct (last_stop_split (m_compiled s))
    as [Hs|(keep & e & done & Hc & He & Hd)].
  - eexists _, _. now apply update_no_stop.
  - eexists _, _. now apply (update_stop s keep e done).
Qed.

End Update.

#[export] Instance keeps_no_stop_preorder : PreOrder keeps_no_stop.
Proof.
  split.
  - intros s H. exact H.
  - intros s1 s2 s3 H1 H2 H. auto.
Qed.

Ltac frames_same_compiled := frames_with ltac:(intros H; exact H).

Section Drains.

Context (E : Engine).

Lemma task_body_keeps_no_stop : frames keeps_no_stop (task_body E).
Proof.
  unfold task_body.
  apply frames_bind; [apply _| |intros _].
  { intros t s. unfold wait. destruct (0 <? m_semaphore s); intros H; exact H. }
  apply frames_bind; [apply _| |intros e].
  { unfold to_compile_back, to_compile_pop. frames_same_compiled. }
  assert (Hc : ∀ src, frames keeps_no_stop (compile E src)).
  { intros src. unfold compile, plugins_find, emit. frames_same_compiled. }
  assert (Hpush : is_stop e = false →
                  frames keeps_no_stop
                    (SpinLock m_compiled_mutex (compiled_push e))).
  { intros He. unfold compiled_push. frames_with ltac:(idtac).
    intros H. unfold no_stop in *. simpl.
    apply Forall_app. split; [exact H|]. now constructor. }
  unfold is_stop in Hpush.
  destruct (resource e); [|destruct (Path_isValid (path e))].
  - apply frames_bind; [apply _|apply Hc|intros _].
    apply frames_bind; [apply _|now apply Hpush|intros _].
    apply frames_ret. apply _.
  - apply frames_bind; [apply _|apply Hc|intros _].
    apply frames_bind; [apply _|now apply Hpush|intros _].
    apply frames_ret. apply _.
  - apply frames_ret. apply _.
Qed.

Lemma step_no_stop op s : no_stop s → no_stop (step E op s).
Proof.
  intros Hs. destruct op; cbn [step].
  - rewrite onFileChanged_call. now destruct (accepts_change E p s).
  - unfold LoadHook_onBeforeLoad. rewrite onBeforeLoad_call.
    now destruct (needs_compiling E fs res).
  - rewrite addPlugin_call. exact Hs.
  - exact Hs.
  - rewrite update_no_stop by exact Hs. constructor.
  - now apply (frames_state_of keeps_no_stop (task_body E) s
                 task_body_keeps_no_stop).
Qed.

Lemma reachable_no_stop s : reachable E s → no_stop s.
Proof.
  intros [ops <-].
  assert (H : ∀ s0, no_stop s0 → no_stop (run E ops s0)).
  { induction ops as [|op ops IH]; intros s0 H0; [exact H0|].
    apply (IH (step E op s0)). now apply step_no_stop. }
  apply H. constructor.
Qed.

(** C5. [popCompiledResource] on an empty compiled list returns, without
    blocking, an entry with a null resource and an invalid path.  [update]
    pops entry after entry from the end of the compiled list, calling
    [continueLoad] for a non-null resource and [reload] for a null resource
    with a valid path, and returns when it pops an entry with a null
    resource and an invalid path: the one from the empty list, which leaves
    the list drained, as in every state the compiler reaches, or one found
    in the list, the entries before it staying.  It returns from every
    state. *)
Theorem update_drains_compiled :
  (∀ s, m_compiled s = [] →
        call popCompiledResource s = Done CompileEntry_default Thread_start s)
  ∧ is_stop CompileEntry_default = true
  ∧ (∀ e, is_stop e = true
          ↔ resource e = None ∧ Path_isValid (path e) = false)
  ∧ (∀ s, no_stop s →
        call update s
        = Done tt Thread_start
            (drained [] (effect_of <$> reverse (m_compiled s)) s))
  ∧ (∀ s keep e done,
        m_compiled s = keep ++ e :: done →
        is_stop e = true →
        Forall (fun e => is_stop e = false) done →
        call update s
        = Done tt Thread_start (drained keep (effect_of <$> reverse done) s))
  ∧ (∀ s, reachable E s → no_stop s)
  ∧ (∀ s, ∃ keep evs,
        call update s = Done tt Thread_start (drained keep evs s)).
Proof.
  split; [exact popCompiledResource_empty|].
  split; [reflexivity|].
  split.
  { intros e. unfold is_stop. destruct (resource e).
    - split; [discriminate|intros [? _]; discriminate].
    - rewrite negb_true_iff. tauto. }
  split; [exact update_no_stop|].
  split; [exact update_stop|].
  split; [exact reachable_no_stop|exact update_returns].
Qed.

End Drains.

(** [update] on the sample list: the load of the last entry continues, the
    entry before it stops the loop, and the first entry stays. *)
Lemma update_drains_compiled_witness :
  call update sample_compiled
  = Done tt Thread_start
      (drained [{| path := "a.png"; resource := None |}]
         [EvContinueLoad sample_resource] sample_compiled).
Proof.
  apply (proj1 (proj2 (proj2 (proj2 (proj2
           (update_drains_compiled sample_engine)))))
           sample_compiled
           [{| path := "a.png"; resource := None |}]
           CompileEntry_default
           [{| path := Path_default; resource := Some sample_resource |}]).
  - reflexivity.
  - reflexivity.
  - repeat constructor.
Defined.

(** ** The lock discipline *)

Section LockDiscipline.

Context (E : Engine).

Lemma update_guarded s : unguarded_of (call update s) = [].
Proof.
  destruct (last_stop_split (m_compiled s))
    as [Hs|(keep & e & done & Hc & He & Hd)].
  - now rewrite update_no_stop.
  - now rewrite (update_stop s keep e done).
Qed.

Lemma task_body_guarded s : unguarded_of (call (task_body E) s) = [].
Proof.
  destruct (0 <? m_semaphore s) eqn:Hsem.
  - destruct (m_to_compile s) as [|e l _] eqn:Hl using rev_ind.
    + unfold task_body. run_M. rewrite Hsem. run_M. rewrite Hl. reflexivity.
    + apply Z.ltb_lt in Hsem. now rewrite (task_body_call E s l e).
  - unfold task_body. run_M. rewrite Hsem. reflexivity.
Qed.

Lemma AssetCompilerImpl_delete_call s :
  call AssetCompilerImpl_delete s
  = Done tt {| held := []; unguarded := [ToCompileList; ToCompileList] |}
      (set_load_hook false
         (enqueued CompileEntry_default (set_finished true s))).
Proof.
  unfold AssetCompilerImpl_delete. run_M.
  rewrite Array_set_back_snoc. reflexivity.
Qed.

(** C6. The editor's and the worker's methods touch the three containers
    only under the container's mutex, but the destructor appends its entry
    to the to-compile list holding no mutex at all. *)
Theorem destructor_appends_without_mutex :
  (∀ s, unguarded_of (call AssetCompilerImpl_delete s)
        = [ToCompileList; ToCompileList])
  ∧ (∀ p s, unguarded_of (call (onFileChanged E p) s) = [])
  ∧ (∀ fs res s,
       unguarded_of (call (LoadHook_onBeforeLoad E fs res) s) = [])
  ∧ (∀ plugin exts s, unguarded_of (call (addPlugin E plugin exts) s) = [])
  ∧ (∀ src s, unguarded_of (call (compile E src) s) = [])
  ∧ (∀ s, unguarded_of (call (task_body E) s) = [])
  ∧ (∀ s, unguarded_of (call update s) = []).
Proof.
  split; [intros s; now rewrite AssetCompilerImpl_delete_call|].
  split; [intros p s; now rewrite onFileChanged_call|].
  split; [intros fs res s; unfold LoadHook_onBeforeLoad;
          now rewrite onBeforeLoad_call|].
  split; [intros plugin exts s; now rewrite addPlugin_call|].
  split; [intros src s; now rewrite compile_call|].
  split; [exact task_body_guarded|exact update_guarded].
Qed.

End LockDiscipline.

(** ** The worker's loop *)

Section Task.

Context (E : Engine).

Lemma task_body_Done s e t s' :
  call (task_body E) s = Done e t s' →
  t = Thread_start
  ∧ ∃ l, m_to_compile s = l ++ [e] ∧ 0 < m_semaphore s.
Proof.
  destruct (0 <? m_semaphore s) eqn:Hsem.
  - destruct (m_to_compile s) as [|x l _] eqn:Hl using rev_ind.
    + unfold task_body. run_M. rewrite Hsem. run_M. rewrite Hl. discriminate.
    + apply Z.ltb_lt in Hsem. rewrite (task_body_call E s l x) by auto.
      intros [= <- <- _]. eauto.
  - unfold task_body. run_M. rewrite Hsem. discriminate.
Qed.

(** When [task] returns, it returns 0, and the entries it took are those
    of as many turns of its loop. *)
Lemma task_returns_turns fuel : ∀ s z taken t s',
  call (task E fuel) s = Done (z, taken) t s' →
  z = 0 ∧ t = Thread_start
  ∧ task_turns E (length taken) s = (taken, s').
Proof.
  induction fuel as [|fuel IH]; intros s z taken t s' H; [discriminate|].
  unfold call in *. cbn [task] in H. unfold mbind at 1, M_bind at 1 in H.
  unfold get at 1 in H. destruct (m_finished s).
  - injection H as <- <- <- <-. auto.
  - unfold mbind at 1, M_bind at 1 in H.
    destruct (task_body E Thread_start s) as [e t1 s1| | |] eqn:Hb;
      try discriminate.
    destruct (task_body_Done s e t1 s1 Hb) as [-> _].
    unfold mbind at 1, M_bind at 1 in H.
    destruct (task E fuel Thread_start s1) as [[z1 l1] t2 s2| | |] eqn:Ht;
      try discriminate.
    injection H as <- <- <- <-.
    destruct (IH s1 z1 l1 t2 s2 Ht) as (-> & -> & Hturns).
    repeat split. cbn [length task_turns snd]. unfold call.
    now rewrite Hb, Hturns.
Qed.

(** X9. After the destructor has set [m_finished], appended its entry and
    signalled, the worker returns 0: at once if it was at the test of its
    loop, and after taking the destructor's entry if it was waiting.  The
    entries that were pending stay in the list, uncompiled. *)
Lemma task_returns_after_delete s :
  0 <= m_semaphore s →
  let s_d := state_of (call AssetCompilerImpl_delete s) s in
  call (task E 1) s_d = Done (0, []) Thread_start s_d
  ∧ call (task_body E ≫= λ _, task E 1) s_d
    = Done (0, []) Thread_start (set_load_hook false (set_finished true s)).
Proof.
  intros Hs s_d. subst s_d. rewrite AssetCompilerImpl_delete_call.
  cbn [state_of]. split; [reflexivity|].
  assert (Hb : task_body E Thread_start
                 (set_load_hook false
                    (enqueued CompileEntry_default (set_finished true s)))
               = Done CompileEntry_default Thread_start
                   (set_load_hook false (set_finished true s))).
  { pose proof (task_body_call E
                  (set_load_hook false
                     (enqueued CompileEntry_default (set_finished true s)))
                  (m_to_compile s) CompileEntry_default) as Hb.
    unfold call in Hb. rewrite Hb; [|reflexivity|simpl; lia].
    f_equal. destruct s; unfold handled; simpl.
    unfold set_load_hook, set_finished, set_to_compile, set_semaphore; simpl.
    f_equal. lia. }
  unfold call, mbind, M_bind. rewrite Hb. reflexivity.
Qed.

End Task.

(** ** getMeta *)

Section GetMeta.

Context (E : Engine).

Lemma to_int_small z : 0 <= z < 2 ^ 31 → to_int z = z.
Proof.
  intros Hz. unfold to_int.
  rewrite Z.mod_small by lia. lia.
Qed.

Lemma to_int_range z : - 2 ^ 31 <= to_int z < 2 ^ 31.
Proof.
  unfold to_int.
  pose proof (Z.mod_pos_bound (z + 2 ^ 31) (2 ^ 32) ltac:(lia)). lia.
Qed.

Lemma to_size_t_small z : 0 <= z < 2 ^ 31 → to_size_t z = z.
Proof. intros Hz. unfold to_size_t. apply Z.mod_small. lia. Qed.

Lemma OsFile_read_length f n :
  (OsFile_read f n).1 = true →
  length (OsFile_read f n).2 = Z.to_nat n
  ∧ (OsFile_read f n).2 = file_byte f <$> seqZ 0 n
  ∧ n <= file_size f.
Proof.
  unfold OsFile_read.
  destruct (file_delivers f && (n <=? file_size f)) eqn:Hok; [|discriminate].
  intros _. simpl. rewrite length_fmap, length_seqZ.
  apply andb_true_iff in Hok as [_ Hle]. apply Z.leb_le in Hle. auto.
Qed.

(** What [getMeta] returns, for every file and size.  It returns -1 when
    the .meta file does not open or the read fails.  Otherwise it returns
    the number of bytes
    it asked for, the smaller of [size] and the file's size converted to
    [int]; that number is never above [size], it is the smaller of [size]
    and the file's size when the file is shorter than 2^31 bytes, and when
    it is not negative the buffer received exactly that many bytes, the
    first ones of the file. *)
Theorem getMeta_reads_min_of_size_and_int_size fs res size :
  (OsFile_open fs (meta_path_of E res) = None →
   getMeta E fs res size = (-1, []))
  ∧ (∀ file,
       OsFile_open fs (meta_path_of E res) = Some file →
       let read_size := Z.min size (to_int (file_size file)) in
       ((OsFile_read file (to_size_t read_size)).1 = false →
        getMeta E fs res size = (-1, []))
       ∧ ((OsFile_read file (to_size_t read_size)).1 = true →
          (getMeta E fs res size).1 = read_size
          ∧ read_size <= size
          ∧ (0 <= file_size file < 2 ^ 31 →
             read_size = Z.min size (file_size file))
          ∧ (0 <= read_size →
             length (getMeta E fs res size).2 = Z.to_nat read_size
             ∧ (getMeta E fs res size).2
               = file_byte file <$> seqZ 0 read_size))).
Proof.
  split.
  - intros Ho. unfold getMeta. now rewrite Ho.
  - intros file Ho read_size. unfold getMeta. rewrite Ho. fold read_size.
    destruct (OsFile_read file (to_size_t read_size)) as [ok data] eqn:Hr.
    split; simpl; intros ->; [reflexivity|].
    split; [reflexivity|]. split; [subst read_size; lia|].
    split.
    + intros Hf. subst read_size. now rewrite to_int_small.
    + intros Hn.
      assert (Hs : to_size_t read_size = read_size).
      { apply to_size_t_small. split; [exact Hn|].
        pose proof (to_int_range (file_size file)). subst read_size. lia. }
      pose proof (OsFile_read_length file (to_size_t read_size)) as Hlen.
      rewrite Hr, Hs in Hlen. simpl in Hlen.
      destruct Hlen as (Hl & Hd & _); auto.
Qed.

End GetMeta.

(** C8. The .meta file is the one named by the source's directory and
    base name followed by .meta.  Of a .meta file of 4 GiB and 5 bytes,
    [getMeta] with a buffer of 100 bytes reads and reports 5 bytes, not the
    100 that are the smaller of the buffer's size and the file's: the
    conversion of the file's size to [int] keeps its low 32 bits only. *)
Lemma getMeta_not_min_of_sizes :
  OsFile_open big_disk (meta_path_of sample_engine "a.png") = Some big_meta
  ∧ getMeta sample_engine big_disk "a.png" 100
    = (5, [Byte.x00; Byte.x00; Byte.x00; Byte.x00; Byte.x00])
  ∧ Z.min 100 (file_size big_meta) = 100
  ∧ (getMeta sample_engine big_disk "a.png" 100).1
    ≠ Z.min 100 (file_size big_meta)
  ∧ to_int (file_size big_meta) = 5
  ∧ meta_path_of sample_engine "a.png"
    = StaticString sample_engine
        [FileInfo_dir sample_engine "a.png";
         FileInfo_basename sample_engine "a.png"; ".meta"%string].
Proof.
  split; [reflexivity|]. split; [vm_compute; reflexivity|].
  split; [reflexivity|]. split; [vm_compute; discriminate|].
  split; reflexivity.
Qed.

(** * Properties of the universe *)

Section UniverseFacts.

Import Lux.

Context {Vec3 Quat : Type}.

Lemma PODArray_at_is_Some {A} (a : list A) (i : Z) :
  is_Some (PODArray_at a i) ↔ 0 <= i < Z.of_nat (length a).
Proof.
  unfold PODArray_at. destruct (0 <=? i) eqn:Hi.
  - apply Z.leb_le in Hi. rewrite lookup_lt_is_Some. lia.
  - apply Z.leb_gt in Hi. split; [intros [? ?]; discriminate|lia].
Qed.

Lemma PODArray_at_set_other {A} (a : list A) (i j : Z) (x : A) :
  j ≠ i → PODArray_at (PODArray_set a i x) j = PODArray_at a j.
Proof.
  intros Hne. unfold PODArray_at, PODArray_set.
  destruct (0 <=? j) eqn:Hj; [|reflexivity].
  destruct (0 <=? i) eqn:Hi; [|reflexivity].
  apply Z.leb_le in Hj, Hi.
  apply list_lookup_insert_ne. lia.
Qed.

Lemma PODArray_set_length {A} (a : list A) (i : Z) (x : A) :
  length (PODArray_set a i x) = length a.
Proof.
  unfold PODArray_set. destruct (0 <=? i); [apply length_insert|reflexivity].
Qed.

(** C10. [getPosition] and [getRotation] have a result exactly for an index
    inside the array; there it is the element stored at the index, and the
    universe is left as it was. *)
Theorem getPosition_getRotation_in_bounds (u : Universe Vec3 Quat) (i : Z) :
  (is_Some (getPosition u i) ↔ 0 <= i < Z.of_nat (length (m_positions u)))
  ∧ (is_Some (getRotation u i) ↔ 0 <= i < Z.of_nat (length (m_rotations u)))
  ∧ (0 <= i < Z.of_nat (length (m_positions u)) →
     ∃ v, m_positions u !! Z.to_nat i = Some v
          ∧ getPosition u i = Some (v, u))
  ∧ (0 <= i < Z.of_nat (length (m_rotations u)) →
     ∃ q, m_rotations u !! Z.to_nat i = Some q
          ∧ getRotation u i = Some (q, u)).
Proof.
  assert (Hat : ∀ A (a : list A),
            0 <= i < Z.of_nat (length a) →
            ∃ x, a !! Z.to_nat i = Some x ∧ PODArray_at a i = Some x).
  { intros A a Hi.
    destruct (proj2 (PODArray_at_is_Some a i) Hi) as [x Hx].
    exists x. split; [|exact Hx].
    unfold PODArray_at in Hx. now destruct (0 <=? i). }
  assert (Hpos : is_Some (getPosition u i)
                 ↔ is_Some (PODArray_at (m_positions u) i)).
  { unfold getPosition. destruct (PODArray_at (m_positions u) i); simpl.
    - split; eauto.
    - split; intros [? ?]; discriminate. }
  assert (Hrot : is_Some (getRotation u i)
                 ↔ is_Some (PODArray_at (m_rotations u) i)).
  { unfold getRotation. destruct (PODArray_at (m_rotations u) i); simpl.
    - split; eauto.
    - split; intros [? ?]; discriminate. }
  split; [now rewrite Hpos, PODArray_at_is_Some|].
  split; [now rewrite Hrot, PODArray_at_is_Some|].
  split.
  - intros Hi. destruct (Hat _ (m_positions u) Hi) as (v & Hl & Hv).
    exists v. split; [exact Hl|]. unfold getPosition. now rewrite Hv.
  - intros Hi. destruct (Hat _ (m_rotations u) Hi) as (q & Hl & Hq).
    exists q. split; [exact Hl|]. unfold getRotation. now rewrite Hq.
Qed.

Context (new_position : Vec3) (new_rotation : Quat).

(** C7. [destroyEntity] records the entity's index in the free-slot list
    and touches no position or rotation.  With a free slot recorded,
    [createEntity] creates the entity in a recorded slot, which it takes off
    the list, and the arrays keep their size and, at every other index,
    their elements; the slot of an entity just destroyed is the one reused.
    With no free slot, the arrays grow by one and the entity is the new last
    index. *)
Theorem createEntity_recycles_free_slots (u : Universe Vec3 Quat) :
  (∀ e,
     index e ∈ m_free_slots (destroyEntity u e)
     ∧ m_positions (destroyEntity u e) = m_positions u
     ∧ m_rotations (destroyEntity u e) = m_rotations u
     ∧ (createEntity new_position new_rotation (destroyEntity u e)).1 = e)
  ∧ (m_free_slots u ≠ [] →
     let e := (createEntity new_position new_rotation u).1 in
     let u' := (createEntity new_position new_rotation u).2 in
     index e ∈ m_free_slots u
     ∧ length (m_free_slots u') = Nat.pred (length (m_free_slots u))
     ∧ length (m_positions u') = length (m_positions u)
     ∧ length (m_rotations u') = length (m_rotations u)
     ∧ ∀ j, j ≠ index e →
         PODArray_at (m_positions u') j = PODArray_at (m_positions u) j
         ∧ PODArray_at (m_rotations u') j = PODArray_at (m_rotations u) j)
  ∧ (m_free_slots u = [] →
     let e := (createEntity new_position new_rotation u).1 in
     let u' := (createEntity new_position new_rotation u).2 in
     index e = Z.of_nat (length (m_positions u))
     ∧ m_positions u' = m_positions u ++ [new_position]
     ∧ m_rotations u' = m_rotations u ++ [new_rotation]).
Proof.
  split; [|split].
  - intros e. split; [|split; [reflexivity|split; [reflexivity|]]].
    + simpl. apply elem_of_app. right. now apply list_elem_of_singleton.
    + unfold createEntity. simpl. rewrite last_snoc. now destruct e.
  - intros Hne. unfold createEntity.
    destruct (m_free_slots u) as [|slot l _] eqn:Hf using rev_ind;
      [congruence|].
    rewrite last_snoc. simpl. rewrite length_app. simpl.
    replace (Nat.pred (length l + 1)) with (length l) by lia.
    rewrite take_app_length, !PODArray_set_length.
    split; [apply elem_of_app; right; now apply list_elem_of_singleton|].
    repeat split; auto using PODArray_at_set_other.
  - intros Hf. unfold createEntity. rewrite Hf. simpl. auto.
Qed.

End UniverseFacts.

(** The position at index 2 of the sample universe. *)
Lemma getPosition_getRotation_in_bounds_witness :
  ∃ v, Lux.m_positions sample_universe !! Z.to_nat 2 = Some v
       ∧ Lux.getPosition sample_universe 2 = Some (v, sample_universe).
Proof.
  apply (proj1 (proj2 (proj2
           (getPosition_getRotation_in_bounds sample_universe 2)))).
  simpl. lia.
Defined.

(** An entity created in the sample universe takes its free slot. *)
Lemma createEntity_recycles_free_slots_witness :
  Lux.index (Lux.createEntity 0 0 sample_universe).1
  ∈ Lux.m_free_slots sample_universe.
Proof.
  apply (proj1 (proj2 (createEntity_recycles_free_slots 0 0 sample_universe))).
  discriminate.
Defined.

(** * Further properties of the asset compiler *)

(** ** The semaphore and the worker *)

Section Balance.

Context (E : Engine).

Lemma task_body_blocked s :
  m_semaphore s <= 0 → call (task_body E) s = Blocked Thread_start s.
Proof.
  intros Hs. unfold task_body. run_M.
  destruct (0 <? m_semaphore s) eqn:H; [apply Z.ltb_lt in H; lia|].
  reflexivity.
Qed.

(** A turn of the worker blocks in [wait], or fails the assertion of
    [back], or takes the last entry. *)
Lemma task_body_cases s :
  (m_semaphore s <= 0 ∧ call (task_body E) s = Blocked Thread_start s)
  ∨ (0 < m_semaphore s ∧ m_to_compile s = []
     ∧ ∃ t, call (task_body E) s
            = AssertFailed t (set_semaphore (m_semaphore s - 1) s))
  ∨ (0 < m_semaphore s
     ∧ ∃ l e, m_to_compile s = l ++ [e]
              ∧ call (task_body E) s
                = Done e Thread_start
                    (handled E e
                       (set_to_compile l
                          (set_semaphore (m_semaphore s - 1) s)))).
Proof.
  destruct (Z_lt_le_dec 0 (m_semaphore s)) as [Hs|Hs].
  - right. destruct (m_to_compile s) as [|e l _] eqn:Hl using rev_ind.
    + left. split; [exact Hs|]. split; [reflexivity|].
      unfold task_body. run_M.
      apply Z.ltb_lt in Hs. rewrite Hs. run_M. rewrite Hl.
      eexists. reflexivity.
    + right. split; [exact Hs|]. exists l, e. split; [reflexivity|].
      now apply task_body_call.
  - left. split; [exact Hs|]. now apply task_body_blocked.
Qed.

Lemma step_balanced op s : balanced s → balanced (step E op s).
Proof.
  unfold balanced. intros Hb. destruct op; cbn [step].
  - rewrite onFileChanged_call. destruct (accepts_change E p s); simpl; auto.
    rewrite length_app. simpl. lia.
  - unfold LoadHook_onBeforeLoad. rewrite onBeforeLoad_call.
    destruct (needs_compiling E fs res); simpl; auto.
    rewrite length_app. simpl. lia.
  - rewrite addPlugin_call. exact Hb.
  - exact Hb.
  - destruct (update_returns s) as (keep & evs & ->). exact Hb.
  - destruct (task_body_cases s)
      as [[_ ->]|[(Hs & Hl & t & ->)|(Hs & l & e & Hl & ->)]]; simpl.
    + exact Hb.
    + rewrite Hl in Hb. simpl in Hb. lia.
    + rewrite handled_semaphore, handled_to_compile. simpl.
      rewrite Hl, length_app in Hb. simpl in Hb. lia.
Qed.

Lemma run_balanced ops : ∀ s, balanced s → balanced (run E ops s).
Proof.
  induction ops as [|op ops IH]; intros s Hb; [exact Hb|].
  apply (IH (step E op s)). now apply step_balanced.
Qed.

(** X1. In every state the compiler reaches, the semaphore's count is the
    number of entries in the to-compile list: each producer signals once
    per entry it appends and the worker waits once per entry it takes. *)
Theorem semaphore_counts_pending s :
  reachable E s → m_semaphore s = Z.of_nat (length (m_to_compile s)).
Proof.
  intros [ops <-]. apply run_balanced. reflexivity.
Qed.

(** X2. In every state the compiler reaches, a turn of the worker either
    blocks in [wait], leaving the state as it is, which happens exactly
    when nothing is pending, or takes the last pending entry; the assertion
    of [back] on an empty array never fails. *)
Theorem worker_turn_never_asserts s :
  reachable E s →
  (m_to_compile s = [] → call (task_body E) s = Blocked Thread_start s)
  ∧ (∀ l e,
       m_to_compile s = l ++ [e] →
       call (task_body E) s
       = Done e Thread_start
           (handled E e
              (set_to_compile l (set_semaphore (m_semaphore s - 1) s))))
  ∧ (∀ t s', call (task_body E) s ≠ AssertFailed t s').
Proof.
  intros [ops <-].
  pose proof (run_balanced ops AssetCompilerImpl_new eq_refl) as Hb.
  set (s := run E ops AssetCompilerImpl_new) in *. unfold balanced in Hb.
  split; [|split].
  - intros Hl. apply task_body_blocked. rewrite Hb, Hl. simpl. lia.
  - intros l e Hl. apply task_body_call; [exact Hl|].
    rewrite Hb, Hl, length_app. simpl. lia.
  - intros t s' H.
    destruct (task_body_cases s)
      as [[_ Hc]|[(Hs & Hl & _)|(_ & l & e & _ & Hc)]].
    + rewrite Hc in H. discriminate.
    + rewrite Hb, Hl in Hs. simpl in Hs. lia.
    + rewrite Hc in H. discriminate.
Qed.

End Balance.

Lemma reachable_run E ops s : reachable E s → reachable E (run E ops s).
Proof.
  intros [ops0 <-]. exists (ops0 ++ ops). unfold run. apply foldl_app.
Qed.

(** The state after the two change notifications is reached from the
    constructor. *)
Lemma two_changes_reachable :
  reachable sample_engine (run sample_engine two_changes sample_state).
Proof. exists (OpAddPlugin 7 ["png"%string] :: two_changes). reflexivity. Qed.

(** Two entries are pending and the semaphore is at two. *)
Lemma semaphore_counts_pending_witness :
  m_semaphore (run sample_engine two_changes sample_state)
  = Z.of_nat (length (m_to_compile
                        (run sample_engine two_changes sample_state))).
Proof.
  apply (semaphore_counts_pending sample_engine).
  exact two_changes_reachable.
Defined.

(** With the two entries pending, the worker's turn fails no assertion. *)
Lemma worker_turn_never_asserts_witness :
  call (task_body sample_engine)
    (run sample_engine two_changes sample_state)
  ≠ AssertFailed Thread_start AssetCompilerImpl_new.
Proof.
  apply (proj2 (proj2 (worker_turn_never_asserts sample_engine _
                         two_changes_reachable))).
Defined.

(** ** Changes under the compiled directory *)

Section CompiledDir.

Context (E : Engine).

Lemma prefix_cons_inv a s1 b s2 :
  String.prefix (String a s1) (String b s2) = true →
  a = b ∧ String.prefix s1 s2 = true.
Proof.
  simpl. destruct (Ascii.ascii_dec a b); [auto|discriminate].
Qed.

Lemma prefix_app_l (s1 s2 p : string) :
  String.prefix (s1 +:+ s2) p = true → String.prefix s1 p = true.
Proof.
  revert p. induction s1 as [|a s1 IH]; intros p H; [now destruct p|].
  destruct p as [|b p]; [discriminate|].
  apply prefix_cons_inv in H as [-> H]. simpl.
  destruct (Ascii.ascii_dec b b); [now apply IH|congruence].
Qed.

(** X3. A change notification for a path under the directory of compiled
    assets, [getCompiledDir], is ignored whatever plugins are registered:
    the files the compiler writes there never come back as work. *)
Theorem onFileChanged_ignores_compiled_dir p s :
  startsWith p getCompiledDir = true →
  call (onFileChanged E p) s = Done tt Thread_start s.
Proof.
  intros Hp. rewrite onFileChanged_call.
  assert (Hl : startsWith p ".lumix" = true).
  { unfold startsWith in *.
    apply (prefix_app_l ".lumix" "/assets/"). exact Hp. }
  unfold accepts_change. now rewrite Hl.
Qed.

End CompiledDir.

(** A compiled .res file changes: nothing is enqueued, although the sample
    state has a plugin for every extension of three letters. *)
Lemma onFileChanged_ignores_compiled_dir_witness :
  call (onFileChanged sample_engine ".lumix/assets/123.res") sample_state
  = Done tt Thread_start sample_state.
Proof.
  apply (onFileChanged_ignores_compiled_dir sample_engine).
  reflexivity.
Defined.

(** ** From a notification to the reload *)

Section Pipeline.

Context (E : Engine).

(** An entry with a source, once appended: the worker's next turn compiles
    the source and the next [update] hands the entry back to the engine. *)
Lemma enqueued_turn_update e src s :
  entry_source e = Some src →
  0 <= m_semaphore s →
  m_compiled s = [] →
  run E [OpTaskTurn; OpUpdate] (enqueued e s)
  = add_event (effect_of e) (add_event (compile_event E src s) s).
Proof.
  intros He Hs Hc. unfold run. cbn [foldl step].
  rewrite (task_body_call E (enqueued e s) (m_to_compile s) e);
    [|reflexivity|simpl; lia].
  cbn [state_of].
  assert (Hstop : is_stop e = false).
  { unfold entry_source in He. unfold is_stop.
    destruct (resource e); [reflexivity|].
    destruct (Path_isValid (path e)); [reflexivity|discriminate]. }
  set (s2 := handled E e _).
  assert (Hc2 : m_compiled s2 = [e]).
  { subst s2. unfold handled. rewrite He. simpl. now rewrite Hc. }
  rewrite update_no_stop
    by (unfold no_stop; rewrite Hc2; repeat constructor; exact Hstop).
  cbn [state_of]. rewrite Hc2. subst s2. unfold handled. rewrite He.
  destruct s; simpl in *. subst. unfold drained, add_event; simpl.
  unfold compile_event; simpl. rewrite <- app_assoc.
  f_equal. lia.
Qed.

(** X4. A change notification that is accepted, for a path that is not
    empty, followed by a turn of the worker and a call of [update] on an
    idle compiler: the registered plugin compiles the path, the resource
    manager is asked to reload it, and the lists and the semaphore are back
    as they were. *)
Theorem change_is_compiled_then_reloaded p plugin s :
  startsWith p ".lumix" = false →
  m_plugins s !! crc32 E (getExtension E 16 p) = Some plugin →
  Path_isValid p = true →
  0 <= m_semaphore s →
  m_compiled s = [] →
  run E [OpFileChanged p; OpTaskTurn; OpUpdate] s
  = add_event (EvReload p) (add_event (EvPluginCompile plugin p) s).
Proof.
  intros Hp Hplugin Hvalid Hs Hc.
  change (run E [OpFileChanged p; OpTaskTurn; OpUpdate] s)
    with (run E [OpTaskTurn; OpUpdate] (step E (OpFileChanged p) s)).
  cbn [step]. rewrite onFileChanged_call.
  assert (Hacc : accepts_change E p s = true).
  { unfold accepts_change. rewrite Hp. simpl.
    apply bool_decide_eq_true_2. rewrite Hplugin. eauto. }
  rewrite Hacc. cbn [state_of].
  rewrite (enqueued_turn_update _ p) by
    (auto; unfold entry_source; simpl; now rewrite Hvalid).
  unfold compile_event, effect_of. simpl. now rewrite Hplugin.
Qed.

(** X5. A load that the hook holds back for compilation, followed by a
    turn of the worker and a call of [update] on an idle compiler: the
    source is compiled and the load continues.  The worker does not look at
    what [compile] returned: with no plugin for the extension an error is
    logged and the load continues all the same. *)
Theorem load_is_compiled_then_continued fs res s :
  needs_compiling E fs res = true →
  0 <= m_semaphore s →
  m_compiled s = [] →
  run E [OpBeforeLoad fs res; OpTaskTurn; OpUpdate] s
  = add_event (EvContinueLoad res)
      (add_event (compile_event E (res_path res) s) s)
  ∧ (m_plugins s !! crc32 E (getExtension E 16 (res_path res)) = None →
     run E [OpBeforeLoad fs res; OpTaskTurn; OpUpdate] s
     = add_event (EvContinueLoad res)
         (add_event (EvLogError (res_path res)) s)).
Proof.
  intros Hn Hs Hc.
  assert (Hrun : run E [OpBeforeLoad fs res; OpTaskTurn; OpUpdate] s
                 = add_event (EvContinueLoad res)
                     (add_event (compile_event E (res_path res) s) s)).
  { change (run E [OpBeforeLoad fs res; OpTaskTurn; OpUpdate] s)
      with (run E [OpTaskTurn; OpUpdate] (step E (OpBeforeLoad fs res) s)).
    cbn [step]. unfold LoadHook_onBeforeLoad.
    rewrite onBeforeLoad_call, Hn. cbn [state_of].
    now rewrite (enqueued_turn_update _ (res_path res)). }
  split; [exact Hrun|].
  intros Hnone. rewrite Hrun. unfold compile_event. now rewrite Hnone.
Qed.

End Pipeline.

(** a.png changes on the sample compiler: plugin 7 compiles it and it is
    reloaded. *)
Lemma change_is_compiled_then_reloaded_witness :
  run sample_engine [OpFileChanged "a.png"; OpTaskTurn; OpUpdate] sample_state
  = add_event (EvReload "a.png")
      (add_event (EvPluginCompile 7 "a.png") sample_state).
Proof.
  apply (change_is_compiled_then_reloaded sample_engine "a.png" 7 sample_state);
    first [reflexivity | vm_compute; discriminate].
Defined.

(** The sample resource is loaded from a disk without its compiled output,
    on a compiler without plugins: an error is logged and the load
    continues. *)
Lemma load_is_compiled_then_continued_witness :
  run sample_engine
    [OpBeforeLoad
       {| fileExists := fun p => String.eqb p "b.png";
          getLastModified := fun _ => 0;
          OsFile_open := fun _ => None |}
       sample_resource;
     OpTaskTurn; OpUpdate]
    AssetCompilerImpl_new
  = add_event (EvContinueLoad sample_resource)
      (add_event (EvLogError "b.png") AssetCompilerImpl_new).
Proof.
  apply (proj2 (load_is_compiled_then_continued sample_engine
                  {| fileExists := fun p => String.eqb p "b.png";
                     getLastModified := fun _ => 0;
                     OsFile_open := fun _ => None |}
                  sample_resource AssetCompilerImpl_new
                  eq_refl ltac:(vm_compute; discriminate) eq_refl)).
  reflexivity.
Defined.

(** ** Plugins and what they compile *)

Section PluginMap.

Context (E : Engine).


(** X7. While no plugin is registered under the hash of a source's
    extension, a change notification for it is ignored, and [compile] of it
    logs an error, calls no plugin and returns false, changing nothing
    else. *)
Theorem unknown_extension_is_not_compiled src s :
  m_plugins s !! crc32 E (getExtension E 16 src) = None →
  call (onFileChanged E src) s = Done tt Thread_start s
  ∧ call (compile E src) s
    = Done false Thread_start (add_event (EvLogError src) s).
Proof.
  intros Hnone. split.
  - rewrite onFileChanged_call. unfold accepts_change. rewrite Hnone.
    rewrite bool_decide_eq_false_2 by (intros [? ?]; discriminate).
    now rewrite andb_false_r.
  - rewrite compile_call. unfold compile_result, compile_event.
    now rewrite Hnone.
Qed.


End PluginMap.


(** A compiler just constructed knows no extension. *)
Lemma unknown_extension_is_not_compiled_witness :
  call (compile sample_engine "a.png") AssetCompilerImpl_new
  = Done false Thread_start
      (add_event (EvLogError "a.png") AssetCompilerImpl_new).
Proof.
  apply (unknown_extension_is_not_compiled sample_engine "a.png"
           AssetCompilerImpl_new).
  reflexivity.
Defined.

(** The worker is waiting with two entries pending when the compiler is
    destroyed: it takes the destructor's entry and returns. *)
Lemma task_returns_after_delete_witness :
  call (task_body sample_engine ≫= λ _, task sample_engine 1)
    (state_of
       (call AssetCompilerImpl_delete
          (run sample_engine two_changes sample_state))
       (run sample_engine two_changes sample_state))
  = Done (0, []) Thread_start
      (set_load_hook false
         (set_finished true (run sample_engine two_changes sample_state))).
Proof.
  apply (task_returns_after_delete sample_engine
           (run sample_engine two_changes sample_state)).
  vm_compute. discriminate.
Defined.

(** ** The worker's loop on a live compiler *)

Section WorkerLoop.

Context (E : Engine).

Lemma handled_finished e s : m_finished (handled E e s) = m_finished s.
Proof. unfold handled. now destruct (entry_source e). Qed.

Lemma handled_compiled e s :
  m_compiled (handled E e s)
  = m_compiled s ++ (if has_source e then [e] else []).
Proof.
  unfold handled, has_source, is_stop, entry_source.
  destruct (resource e); simpl; [reflexivity|].
  destruct (Path_isValid (path e)); simpl; [reflexivity|].
  now rewrite app_nil_r.
Qed.

(** X10. On a live compiler whose semaphore counts the pending entries,
    the worker's loop takes every pending entry, newest first, hands those
    that have a source over to the compiled list, and then blocks in
    [wait] with nothing pending: it does not return. *)
Theorem task_drains_then_waits fuel s :
  m_finished s = false →
  balanced s →
  (length (m_to_compile s) < fuel)%nat →
  ∃ s',
    call (task E fuel) s = Blocked Thread_start s'
    ∧ m_to_compile s' = []
    ∧ m_semaphore s' = 0
    ∧ m_compiled s'
      = m_compiled s ++ List.filter has_source (reverse (m_to_compile s)).
Proof.
  remember (m_to_compile s) as l eqn:Hl. revert fuel s Hl.
  induction l as [|e l IH] using rev_ind; intros fuel s Hl Hfin Hb Hfuel.
  - destruct fuel as [|fuel]; [simpl in Hfuel; lia|].
    exists s. unfold balanced in Hb. rewrite <- Hl in Hb. simpl in Hb.
    split; [|split; [now symmetry|split; [exact Hb|now rewrite app_nil_r]]].
    unfold call. cbn [task]. unfold mbind at 1, M_bind at 1, get at 1.
    rewrite Hfin. unfold mbind at 1, M_bind at 1.
    pose proof (task_body_blocked E s ltac:(lia)) as Hblk.
    unfold call in Hblk. now rewrite Hblk.
  - rewrite length_app in Hfuel. simpl in Hfuel.
    destruct fuel as [|fuel]; [lia|].
    unfold balanced in Hb. rewrite <- Hl, length_app in Hb. simpl in Hb.
    pose proof (task_body_call E s l e (eq_sym Hl) ltac:(lia)) as Hturn.
    set (s1 := handled E e _) in Hturn.
    destruct (IH fuel s1) as (s' & Hrun & Hq & Hsem & Hc).
    + subst s1. now rewrite handled_to_compile.
    + subst s1. now rewrite handled_finished.
    + unfold balanced. subst s1.
      rewrite handled_semaphore, handled_to_compile. simpl. lia.
    + lia.
    + exists s'. split; [|split; [exact Hq|split; [exact Hsem|]]].
      * unfold call in *. cbn [task].
        unfold mbind at 1, M_bind at 1, get at 1. rewrite Hfin.
        unfold mbind at 1, M_bind at 1. rewrite Hturn.
        unfold mbind at 1, M_bind at 1. now rewrite Hrun.
      * rewrite Hc. subst s1. rewrite handled_compiled. simpl.
        rewrite reverse_snoc. simpl.
        destruct (has_source e); simpl; [|now rewrite app_nil_r].
        now rewrite <- app_assoc.
Qed.


End WorkerLoop.

(** The worker's loop on the sample compiler with two entries pending. *)
Lemma task_drains_then_waits_witness :
  ∃ s',
    call (task sample_engine 3) (run sample_engine two_changes sample_state)
    = Blocked Thread_start s'
    ∧ m_to_compile s' = []
    ∧ m_semaphore s' = 0
    ∧ m_compiled s'
      = m_compiled (run sample_engine two_changes sample_state)
        ++ List.filter has_source
             (reverse
                (m_to_compile (run sample_engine two_changes sample_state))).
Proof.
  apply (task_drains_then_waits sample_engine 3
           (run sample_engine two_changes sample_state)).
  - reflexivity.
  - reflexivity.
  - vm_compute. lia.
Defined.


(** ** Compiled before handed back *)

Section CompiledBeforeUse.

Context (E : Engine).

Lemma was_compiled_app src evs evs' :
  was_compiled src evs → was_compiled src (evs ++ evs').
Proof.
  intros (ev & Hin & Hev). exists ev. split; [|exact Hev].
  apply elem_of_app. now left.
Qed.

Lemma compiles_compile_event src s :
  compiles src (compile_event E src s) = true.
Proof.
  unfold compile_event.
  destruct (m_plugins s !! crc32 E (getExtension E 16 src)); simpl;
    apply String.eqb_refl.
Qed.

Lemma effect_source_compile_event src s :
  effect_source (compile_event E src s) = None.
Proof.
  unfold compile_event.
  now destruct (m_plugins s !! crc32 E (getExtension E 16 src)).
Qed.

Lemma effect_source_effect_of e src :
  entry_source e = Some src → effect_source (effect_of e) = Some src.
Proof.
  unfold entry_source, effect_of. destruct (resource e); simpl; [auto|].
  destruct (Path_isValid (path e)); [auto|discriminate].
Qed.

Lemma compiled_before_use_snoc evs ev :
  compiled_before_use evs →
  (∀ src, effect_source ev = Some src → was_compiled src evs) →
  compiled_before_use (evs ++ [ev]).
Proof.
  intros Hevs Hev pre ev0 post src Heq Hsrc.
  destruct post as [|x post _] using rev_ind.
  - apply app_inj_tail in Heq as [-> ->]. auto.
  - change (pre ++ ev0 :: post ++ [x]) with (pre ++ (ev0 :: post) ++ [x])
      in Heq.
    rewrite app_assoc in Heq. apply app_inj_tail in Heq as [-> _].
    now apply (Hevs pre ev0 post).
Qed.

Lemma compiled_before_use_effects c : ∀ evs,
  compiled_before_use evs →
  (∀ e, e ∈ c →
        ∃ src, entry_source e = Some src ∧ was_compiled src evs) →
  compiled_before_use (evs ++ (effect_of <$> c)).
Proof.
  induction c as [|x c IH]; intros evs Hevs Hc.
  - simpl. now rewrite app_nil_r.
  - rewrite fmap_cons.
    change (evs ++ effect_of x :: (effect_of <$> c))
      with (evs ++ [effect_of x] ++ (effect_of <$> c)).
    rewrite app_assoc. apply IH.
    + apply compiled_before_use_snoc; [exact Hevs|].
      intros src Hsrc.
      destruct (Hc x) as (src' & Hx & Hdone); [apply elem_of_cons; auto|].
      rewrite (effect_source_effect_of x src' Hx) in Hsrc.
      now injection Hsrc as <-.
    + intros e He.
      destruct (Hc e) as (src & Hs & Hdone); [apply elem_of_cons; auto|].
      exists src. split; [exact Hs|]. now apply was_compiled_app.
Qed.

Lemma hands_back_ext s s' :
  m_compiled s' = m_compiled s →
  events s' = events s →
  compiled_entries_done s ∧ compiled_before_use (events s) →
  compiled_entries_done s' ∧ compiled_before_use (events s').
Proof.
  unfold compiled_entries_done. intros -> ->. auto.
Qed.

Lemma compiled_entries_done_no_stop s : compiled_entries_done s → no_stop s.
Proof.
  intros Hd. apply Forall_forall. intros e He.
  destruct (Hd e) as (src & Hsrc & _); [exact He|].
  unfold entry_source in Hsrc. unfold is_stop.
  destruct (resource e); [reflexivity|].
  destruct (Path_isValid (path e)); [reflexivity|discriminate].
Qed.

Lemma step_hands_back op s :
  compiled_entries_done s ∧ compiled_before_use (events s) →
  compiled_entries_done (step E op s)
  ∧ compiled_before_use (events (step E op s)).
Proof.
  intros Hinv. destruct op; cbn [step].
  - rewrite onFileChanged_call. cbn [state_of].
    destruct (accepts_change E p s); [|exact Hinv].
    now apply (hands_back_ext s).
  - unfold LoadHook_onBeforeLoad. rewrite onBeforeLoad_call. cbn [state_of].
    destruct (needs_compiling E fs res); [|exact Hinv].
    now apply (hands_back_ext s).
  - rewrite addPlugin_call. now apply (hands_back_ext s).
  - exact Hinv.
  - destruct Hinv as [Hd Hb].
    rewrite update_no_stop by now apply compiled_entries_done_no_stop.
    cbn [state_of]. split.
    + intros e He. simpl in He. now apply elem_of_nil in He.
    + simpl. apply compiled_before_use_effects; [exact Hb|].
      intros e He. apply Hd. apply (proj1 (elem_of_reverse _ _) He).
  - destruct (task_body_cases E s)
      as [[_ ->]|[(_ & _ & t & ->)|(_ & l & e & _ & ->)]]; cbn [state_of].
    + exact Hinv.
    + now apply (hands_back_ext s).
    + destruct Hinv as [Hd Hb]. unfold handled.
      destruct (entry_source e) as [src|] eqn:Hsrc;
        [|now apply (hands_back_ext s)].
      split.
      * intros x Hx. simpl in Hx. simpl.
        apply elem_of_app in Hx as [Hx|Hx].
        -- destruct (Hd x Hx) as (src' & Hs' & Hdone).
           exists src'. split; [exact Hs'|]. now apply was_compiled_app.
        -- apply list_elem_of_singleton in Hx as ->.
           exists src. split; [exact Hsrc|].
           eexists. split; [apply elem_of_app; right;
                            now apply list_elem_of_singleton|].
           apply compiles_compile_event.
      * simpl. apply compiled_before_use_snoc; [exact Hb|].
        intros src' Hs'.
        unfold compile_event in Hs'. simpl in Hs'.
        now destruct (m_plugins s !! crc32 E (getExtension E 16 src)).
Qed.

(** X12. In every state the compiler reaches, each [continueLoad] and each
    [reload] that [update] has made comes after a compilation of the same
    source by the worker (a plugin's [compile], or the error logged for an
    unknown extension), and every entry waiting in the compiled list has a
    source that was compiled. *)
Theorem handed_back_after_compilation s :
  reachable E s →
  compiled_before_use (events s) ∧ compiled_entries_done s.
Proof.
  intros [ops <-].
  assert (H : ∀ s0,
            compiled_entries_done s0 ∧ compiled_before_use (events s0) →
            compiled_entries_done (run E ops s0)
            ∧ compiled_before_use (events (run E ops s0))).
  { induction ops as [|op ops IH]; intros s0 H0; [exact H0|].
    apply (IH (step E op s0)). now apply step_hands_back. }
  destruct (H AssetCompilerImpl_new) as [Hd Hb]; [|now split].
  split.
  - intros e He. simpl in He. now apply elem_of_nil in He.
  - intros pre ev post src Heq. simpl in Heq. now destruct pre.
Qed.

End CompiledBeforeUse.

(** After the two change notifications, two turns of the worker and an
    update, the reloads come after the compilations. *)
Lemma handed_back_after_compilation_witness :
  compiled_before_use
    (events
       (run sample_engine (two_changes ++ [OpTaskTurn; OpTaskTurn; OpUpdate])
          sample_state))
  ∧ compiled_entries_done
      (run sample_engine (two_changes ++ [OpTaskTurn; OpTaskTurn; OpUpdate])
         sample_state).
Proof.
  apply (handed_back_after_compilation sample_engine).
  apply reachable_run. exists [OpAddPlugin 7 ["png"%string]]. reflexivity.
Defined.

(** ** getMeta on a .meta file shorter than 2 GiB *)

Section GetMetaEdges.

Context (E : Engine).

Lemma to_size_t_negative z : - 2 ^ 31 <= z < 0 → to_size_t z = z + 2 ^ 64.
Proof.
  intros Hz. unfold to_size_t.
  rewrite <- (Z_mod_plus_full z 1 (2 ^ 64)).
  apply Z.mod_small. lia.
Qed.

(** X13. For a .meta file that opens and is shorter than 2^31 bytes, and a
    [size] in the range of [int]: with [size] not negative and a device that
    delivers, [getMeta] returns the smaller of [size] and the file's size
    with that many first bytes of the file (0 and no byte for a buffer of
    size 0 or an empty file); with a negative [size] it returns -1, the
    conversion to [size_t] asking for more bytes than the file has; and it
    returns -1 when the device does not deliver. *)
Theorem getMeta_of_short_file fs res size file :
  OsFile_open fs (meta_path_of E res) = Some file →
  0 <= file_size file < 2 ^ 31 →
  - 2 ^ 31 <= size < 2 ^ 31 →
  (file_delivers file = true → 0 <= size →
   getMeta E fs res size
   = (Z.min size (file_size file),
      file_byte file <$> seqZ 0 (Z.min size (file_size file))))
  ∧ (size < 0 → getMeta E fs res size = (-1, []))
  ∧ (file_delivers file = false → getMeta E fs res size = (-1, [])).
Proof.
  intros Ho Hf Hsize. unfold getMeta. rewrite Ho.
  rewrite to_int_small by exact Hf. unfold OsFile_read.
  split; [|split].
  - intros Hd Hpos. rewrite Hd, to_size_t_small by lia.
    destruct (Z.min size (file_size file) <=? file_size file) eqn:Hle;
      [reflexivity|].
    apply Z.leb_gt in Hle. lia.
  - intros Hneg. replace (Z.min size (file_size file)) with size by lia.
    rewrite to_size_t_negative by lia.
    destruct (size + 2 ^ 64 <=? file_size file) eqn:Hle.
    + apply Z.leb_le in Hle. lia.
    + now rewrite andb_false_r.
  - intros Hd. now rewrite Hd.
Qed.

End GetMetaEdges.

(** A .meta file of three bytes, asked for with a size of -1. *)
Lemma getMeta_of_short_file_witness :
  getMeta sample_engine
    {| fileExists := fun _ => true;
       getLastModified := fun _ => 0;
       OsFile_open := fun _ =>
         Some {| file_size := 3; file_byte := fun _ => Byte.x2a;
                 file_delivers := true |} |}
    "a.png" (-1)
  = (-1, []).
Proof.
  apply (proj1 (proj2
           (getMeta_of_short_file sample_engine
              {| fileExists := fun _ => true;
                 getLastModified := fun _ => 0;
                 OsFile_open := fun _ =>
                   Some {| file_size := 3; file_byte := fun _ => Byte.x2a;
                           file_delivers := true |} |}
              "a.png" (-1)
              {| file_size := 3; file_byte := fun _ => Byte.x2a;
                 file_delivers := true |}
              eq_refl ltac:(simpl; lia) ltac:(lia)))).
  lia.
Defined.

(** ** update with nothing compiled *)

Section UpdateIdle.

Context (E : Engine).

Lemma update_idle s :
  m_compiled s = [] → call update s = Done tt Thread_start s.
Proof.
  intros Hc.
  rewrite update_no_stop by (unfold no_stop; rewrite Hc; constructor).
  rewrite Hc. simpl. now rewrite drained_nil.
Qed.

(** X14. [update] with an empty compiled list calls nothing and changes
    nothing, and in every state the compiler reaches a second [update]
    right after a first one changes nothing: what was compiled is handed
    back once. *)
Theorem update_hands_back_once s :
  (m_compiled s = [] → call update s = Done tt Thread_start s)
  ∧ (reachable E s →
     step E OpUpdate (step E OpUpdate s) = step E OpUpdate s).
Proof.
  split; [apply update_idle|].
  intros Hr. cbn [step].
  rewrite (update_no_stop s) by now apply (reachable_no_stop E).
  cbn [state_of]. now rewrite update_idle.
Qed.

End UpdateIdle.

(** A second [update] after the worker compiled the two changed files. *)
Lemma update_hands_back_once_witness :
  step sample_engine OpUpdate
    (step sample_engine OpUpdate
       (run sample_engine (two_changes ++ [OpTaskTurn; OpTaskTurn])
          sample_state))
  = step sample_engine OpUpdate
      (run sample_engine (two_changes ++ [OpTaskTurn; OpTaskTurn])
         sample_state).
Proof.
  apply (update_hands_back_once sample_engine).
  apply reachable_run. exists [OpAddPlugin 7 ["png"%string]]. reflexivity.
Defined.
